(** * kerio_trans.py: the literal pipeline

    A shallow embedding of the string-literal pipeline of [kerio_trans.py]
    (scanning for the values of key-value pairs, masking of placeholders, the call of
    the translation backend, unmasking and re-escaping), and the properties
    of it that the specification states.

    Python [str] values are sequences of Unicode code points; they are
    modelled as lists of code points. *)

From Stdlib Require Import String Ascii.
From Stdlib Require Import List NArith ZArith Arith Bool Lia.
From Stdlib Require Decimal DecimalNat.
Import ListNotations.

Set Implicit Arguments.

(** ** Characters and strings *)

Definition char : Type := N.
Bind Scope N_scope with char.
Definition str : Type := list char.

(** ASCII text written as a Rocq string, as a sequence of code points. *)
Fixpoint lit (t : string) : str :=
  match t with
  | EmptyString => []
  | String a t' => N_of_ascii a :: lit t'
  end.

Definition QUOTE : char := 34%N.      (* the double quote *)
Definition BACKSLASH : char := 92%N.
Definition NEWLINE : char := 10%N.

(** ** The [str] methods the program uses *)

Module Py.

(** [s.startswith(p)] *)
Fixpoint startswith (s p : str) : bool :=
  match p, s with
  | [], _ => true
  | _ :: _, [] => false
  | a :: p', b :: s' => (a =? b)%N && startswith s' p'
  end.

(** [s.endswith(p)] *)
Definition endswith (s p : str) : bool := startswith (rev s) (rev p).

(** [p in s] *)
Fixpoint contains (s p : str) : bool :=
  startswith s p || match s with [] => false | _ :: s' => contains s' p end.

(** One bound of a slice: a negative index counts from the end, and the
    result is clamped to the string. *)
Definition bound (len : nat) (i : Z) : nat :=
  let j := if (i <? 0)%Z then (i + Z.of_nat len)%Z else i in
  Nat.min (Z.to_nat j) len.

(** [s[start:stop]] *)
Definition slice (s : str) (start stop : Z) : str :=
  let a := bound (length s) start in
  let b := bound (length s) stop in
  firstn (b - a) (skipn a s).

(** [s.replace(old, new)] for a non-empty [old]: the occurrences of [old]
    are found from the left, and the scan resumes after each one. The fuel
    counts the characters still to scan. *)
Fixpoint replace_fuel (fuel : nat) (s old new : str) : str :=
  match fuel with
  | O => s
  | S f =>
      if startswith s old then new ++ replace_fuel f (skipn (length old) s) old new
      else match s with
           | [] => []
           | c :: s' => c :: replace_fuel f s' old new
           end
  end.

(** [s.replace(old, new)]; with an empty [old], Python puts [new] before
    every character and at the end. *)
Definition replace (s old new : str) : str :=
  match old with
  | [] => new ++ flat_map (fun c => c :: new) s
  | _ :: _ => replace_fuel (length s) s old new
  end.

(** The digits of [str(n)]. *)
Fixpoint digits (d : Decimal.uint) : str :=
  match d with
  | Decimal.Nil => []
  | Decimal.D0 d' => 48%N :: digits d'
  | Decimal.D1 d' => 49%N :: digits d'
  | Decimal.D2 d' => 50%N :: digits d'
  | Decimal.D3 d' => 51%N :: digits d'
  | Decimal.D4 d' => 52%N :: digits d'
  | Decimal.D5 d' => 53%N :: digits d'
  | Decimal.D6 d' => 54%N :: digits d'
  | Decimal.D7 d' => 55%N :: digits d'
  | Decimal.D8 d' => 56%N :: digits d'
  | Decimal.D9 d' => 57%N :: digits d'
  end.

(** [str(n)] for a non-negative [n], as an f-string formats it. *)
Definition str_of_nat (n : nat) : str := digits (Nat.to_uint n).

(** [enumerate(l)], counting from [i]. *)
Fixpoint enumerate_from (A : Type) (i : nat) (l : list A) : list (nat * A) :=
  match l with
  | [] => []
  | x :: l' => (i, x) :: enumerate_from (S i) l'
  end.

Definition enumerate (A : Type) (l : list A) : list (nat * A) := enumerate_from 0 l.

(** [c.isspace()], which is also [\s] of a [str] pattern. *)
Definition isspace (c : char) : bool :=
  ((9 <=? c) && (c <=? 13) || (28 <=? c) && (c <=? 32) || (c =? 133) || (c =? 160)
   || (c =? 5760) || (8192 <=? c) && (c <=? 8202) || (c =? 8232) || (c =? 8233)
   || (c =? 8239) || (c =? 8287) || (c =? 12288))%N.

(** The first code points of the runs of ten decimal digits of Unicode 14
    (general category Nd), without the mathematical digits. *)
Definition decimal_runs : list N :=
  [48; 1632; 1776; 1984; 2406; 2534; 2662; 2790; 2918; 3046; 3174; 3302; 3430;
   3558; 3664; 3792; 3872; 4160; 4240; 6112; 6160; 6470; 6608; 6784; 6800; 6992;
   7088; 7232; 7248; 42528; 43216; 43264; 43472; 43504; 43600; 44016; 65296;
   66720; 68912; 69734; 69872; 69942; 70096; 70384; 70736; 70864; 71248; 71360;
   71472; 71904; 72016; 72784; 73040; 73120; 92768; 92864; 93008; 123200;
   123632; 125264; 130032]%N.

(** [\d] of a [str] pattern: a Unicode decimal digit. The table is the one
    of the Unicode version of the interpreter; the ASCII digits are in all
    of them. *)
Definition isdecimal (c : char) : bool :=
  (existsb (fun a => (a <=? c) && (c <=? a + 9)) decimal_runs
   || (120782 <=? c) && (c <=? 120831))%N.

(** An ASCII digit, as [str(n)] is made of. *)
Definition is_ascii_digit (c : char) : bool := ((48 <=? c) && (c <=? 57))%N.

(** [s.lstrip()] *)
Fixpoint lstrip (s : str) : str :=
  match s with
  | [] => []
  | c :: s' => if isspace c then lstrip s' else s
  end.

(** [s.strip()] *)
Definition strip (s : str) : str := rev (lstrip (rev (lstrip s))).

(** [s == t] *)
Definition str_eqb (s t : str) : bool :=
  if list_eq_dec N.eq_dec s t then true else false.

(** [s in (t1, t2, ...)] *)
Definition in_tuple (s : str) (l : list str) : bool := existsb (str_eqb s) l.

End Py.

(** ** Regular expressions, as the backtracking matcher of [re] runs them *)

Module Re.

Inductive regex : Type :=
| Cls (p : char -> bool)            (* one character of a class *)
| Seq (a b : regex)                 (* [ab] *)
| Alt (a b : regex)                 (* [a|b], [a] tried first *)
| Star (greedy : bool) (r : regex)  (* [r*] or [r*?] *)
| Group (n : nat) (r : regex).      (* the capturing group number [n] *)

Definition Chr (c : char) : regex := Cls (N.eqb c).
Definition NotIn (l : list char) : regex := Cls (fun c => negb (existsb (N.eqb c) l)).
Definition Range (lo hi : char) : char -> bool := fun c => ((lo <=? c) && (c <=? hi))%N.
(** [.] without DOTALL *)
Definition Dot : regex := NotIn [NEWLINE].
(** [r+] *)
Definition Plus (r : regex) : regex := Seq r (Star true r).

(** The text of the groups closed so far, the last one closed first. *)
Definition captures : Type := list (nat * str).

(** All the ways to go on after [body*], in the order in which the
    matcher tries them: a greedy star goes round once more before it tries
    to stop, a lazy one stops first. An iteration that consumes nothing
    ends the loop. *)
Fixpoint star_loop (body : str -> captures -> list (str * captures)) (greedy : bool)
         (fuel : nat) (s : str) (c : captures) : list (str * captures) :=
  let again :=
    match fuel with
    | O => []
    | S f =>
        flat_map (fun '(s', c') =>
                    if length s' <? length s then star_loop body greedy f s' c' else [])
                 (body s c)
    end in
  if greedy then again ++ [(s, c)] else (s, c) :: again.

(** [run r s c]: the ways [r] matches a prefix of [s], each one as the
    text left and the captures, in the order in which backtracking finds
    them. The match the matcher reports is the first. *)
Fixpoint run (r : regex) (s : str) (c : captures) : list (str * captures) :=
  match r with
  | Cls p =>
      match s with
      | a :: s' => if p a then [(s', c)] else []
      | [] => []
      end
  | Seq a b => flat_map (fun '(s', c') => run b s' c') (run a s c)
  | Alt a b => run a s c ++ run b s c
  | Star greedy r1 => star_loop (run r1) greedy (length s) s c
  | Group n r1 =>
      map (fun '(s', c') => (s', (n, firstn (length s - length s') s) :: c')) (run r1 s c)
  end.

(** A match object: the text matched, the groups, and the text after the
    match. *)
Record Match : Type := mkMatch {
  group0 : str;
  groups : captures;
  rest : str
}.

Fixpoint lookup (n : nat) (c : captures) : option str :=
  match c with
  | [] => None
  | (k, t) :: c' => if Nat.eqb k n then Some t else lookup n c'
  end.

(** [m.group(n)] for [n > 0]. A group that took no part in the match gives
    [None] in Python and the empty text here; the groups of the patterns
    of this program take part in every match. *)
Definition group (m : Match) (n : nat) : str :=
  match lookup n (groups m) with
  | Some t => t
  | None => []
  end.

(** [pattern.match(s)] *)
Definition match_at (r : regex) (s : str) : option Match :=
  match run r s [] with
  | [] => None
  | (s', c) :: _ =>
      Some {| group0 := firstn (length s - length s') s; groups := c; rest := s' |}
  end.

(** [pattern.search(s)]: the text before the leftmost match, and the
    match. *)
Fixpoint search (r : regex) (s : str) : option (str * Match) :=
  match match_at r s with
  | Some m => Some ([], m)
  | None =>
      match s with
      | [] => None
      | a :: s' =>
          match search r s' with
          | Some (gap, m) => Some (a :: gap, m)
          | None => None
          end
      end
  end.

(** [pattern.sub(repl, s)] with a function [repl], for a pattern that
    matches no empty text (as the patterns of this program, see
    [run_consumes]): the leftmost matches that do not overlap are
    replaced, from the left, by what [repl] returns for them. [repl] may
    have an effect, on a state of type [St]. The fuel counts the
    characters still to scan. *)
Fixpoint sub_fuel (St : Type) (fuel : nat) (r : regex)
         (repl : Match -> St -> str * St) (s : str) (st : St) : str * St :=
  match fuel with
  | O => (s, st)
  | S f =>
      match search r s with
      | None => (s, st)
      | Some (gap, m) =>
          let '(new, st1) := repl m st in
          let '(out, st2) := sub_fuel f r repl (rest m) st1 in
          (gap ++ new ++ out, st2)
      end
  end.

Definition sub (St : Type) (r : regex) (repl : Match -> St -> str * St)
           (s : str) (st : St) : str * St :=
  sub_fuel (length s) r repl s st.

(** [pattern.finditer(s)]: the matches [sub] replaces, each with the text
    between it and the match before, and the text after the last match. *)
Fixpoint finditer_fuel (fuel : nat) (r : regex) (s : str) : list (str * Match) * str :=
  match fuel with
  | O => ([], s)
  | S f =>
      match search r s with
      | None => ([], s)
      | Some (gap, m) =>
          let '(ms, tail) := finditer_fuel f r (rest m) in
          ((gap, m) :: ms, tail)
      end
  end.

Definition finditer (r : regex) (s : str) : list (str * Match) * str :=
  finditer_fuel (length s) r s.

(** A pattern that can match the empty text (a sufficient test). *)
Fixpoint nullable (r : regex) : bool :=
  match r with
  | Cls _ => false
  | Seq a b => nullable a && nullable b
  | Alt a b => nullable a || nullable b
  | Star _ _ => true
  | Group _ r1 => nullable r1
  end.

(** A pattern with a capturing group in it. *)
Fixpoint has_group (r : regex) : bool :=
  match r with
  | Cls _ => false
  | Seq a b | Alt a b => has_group a || has_group b
  | Star _ r1 => has_group r1
  | Group _ _ => true
  end.

(** The text with the matches as they are. *)
Fixpoint original (ms : list (str * Match)) (tail : str) : str :=
  match ms with
  | [] => tail
  | (gap, m) :: ms' => gap ++ group0 m ++ original ms' tail
  end.

(** The text with [repl] called on the matches, from the left. *)
Fixpoint replaced (St : Type) (repl : Match -> St -> str * St)
         (ms : list (str * Match)) (tail : str) (st : St) : str * St :=
  match ms with
  | [] => (tail, st)
  | (gap, m) :: ms' =>
      let '(new, st1) := repl m st in
      let '(out, st2) := replaced repl ms' tail st1 in
      (gap ++ new ++ out, st2)
  end.

(** A scan of the text from the left: each match is the leftmost one in
    the text after the match before, and no match is left in the tail. *)
Inductive scanned (r : regex) : str -> list (str * Match) -> str -> Prop :=
| scanned_end s : search r s = None -> scanned r s [] s
| scanned_match s gap m ms tail :
    search r s = Some (gap, m) -> scanned r (rest m) ms tail ->
    scanned r s ((gap, m) :: ms) tail.

(** *** Patterns that match the empty text

    The pattern of the default output path ends in [$] and matches the
    empty text, and it is used with a replacement text, not a function. *)

(** [$] without MULTILINE: at the end of the text, and before a newline
    that ends the text. *)
Definition at_end (s : str) : bool :=
  match s with
  | [] => true
  | [c] => (c =? NEWLINE)%N
  | _ => false
  end.

(** The ways [(r)?$] matches a prefix of [s], in the order of the matcher:
    with the group, then without it; [$] has to hold where the match
    ends. *)
Definition run_opt_end (r : regex) (s : str) : list (str * captures) :=
  filter (fun sc => at_end (fst sc)) (run (Group 1 r) s [] ++ [(s, [])]).

(** The first way to match at the head of [s], as the text left. After an
    empty match, [must_advance] is set and an empty match at the same place
    is passed over. *)
Definition first_match (m : str -> list (str * captures)) (must_advance : bool)
           (s : str) : option str :=
  match filter (fun sc => negb (must_advance && (length (fst sc) =? length s))) (m s) with
  | [] => None
  | (s', _) :: _ => Some s'
  end.

(** The search of [sub]: the text before the leftmost match, the text
    matched and the text left. [must_advance] holds for the first place
    only. *)
Fixpoint search_from (m : str -> list (str * captures)) (must_advance : bool)
         (s : str) : option (str * str * str) :=
  match first_match m must_advance s with
  | Some s' => Some ([], firstn (length s - length s') s, s')
  | None =>
      match s with
      | [] => None
      | a :: t =>
          match search_from m false t with
          | Some (gap, matched, s') => Some (a :: gap, matched, s')
          | None => None
          end
      end
  end.

(** [pattern.sub(repl, s)] with a text [repl] without backslash, which is
    put in as it is, as Python 3.7 and later do it: a match may be empty,
    also right after a match that is not; after an empty match the search
    has to advance. The fuel counts the searches. *)
Fixpoint sub_text_fuel (fuel : nat) (m : str -> list (str * captures)) (repl : str)
         (must_advance : bool) (s : str) : str :=
  match fuel with
  | O => s
  | S f =>
      match search_from m must_advance s with
      | None => s
      | Some (gap, matched, s') =>
          gap ++ repl ++ sub_text_fuel f m repl (match matched with [] => true | _ => false end) s'
      end
  end.

Definition sub_text (m : str -> list (str * captures)) (repl : str) (s : str) : str :=
  sub_text_fuel (2 * length s + 2) m repl false s.

End Re.

Import Re.

(** ** The program *)

(** [CYRILLIC_RE = re.compile(r'[\u0400-\u04FF]')] *)
Definition CYRILLIC_RE : regex := Cls (Range 1024 1279).

(** The body of a string literal, [(?:\\.|[^Q\\])*], where Q stands for the
    double quote here and below. *)
Definition STRING_BODY : regex :=
  Star true (Alt (Seq (Chr BACKSLASH) Dot) (NotIn [QUOTE; BACKSLASH])).

(** [STRING_RE = re.compile(r'Q(?:\\.|[^Q\\])*Q')] *)
Definition STRING_RE : regex := Seq (Chr QUOTE) (Seq STRING_BODY (Chr QUOTE)).

(** [KV_VALUE_RE]: group 1 is [:\s*], the colon and the blanks after it, and
    group 2 is the string literal, [Q(?:\\.|[^Q\\])*Q]. *)
Definition KV_VALUE_RE : regex :=
  Seq (Group 1 (Seq (Chr 58) (Star true (Cls Py.isspace))))
      (Group 2 STRING_RE).

(** [PLACEHOLDER_PATTERNS] *)
Definition PLACEHOLDER_PATTERNS : list regex :=
  [ (* %\d+ *)
    Seq (Chr 37) (Plus (Cls Py.isdecimal));
    (* \{[^\}]*\} *)
    Seq (Chr 123) (Seq (Star true (NotIn [125%N])) (Chr 125));
    (* <[^>]*?> *)
    Seq (Chr 60) (Seq (Star false (NotIn [62%N])) (Chr 62));
    (* &[a-zA-Z#0-9]+; *)
    Seq (Chr 38)
        (Seq (Plus (Cls (fun c => Range 97 122 c || Range 65 90 c || (c =? 35)%N
                                  || Range 48 57 c)))
             (Chr 59));
    (* \[\s*[^|\]]+\s*\|\s*[^]]+\] *)
    Seq (Chr 91)
        (Seq (Star true (Cls Py.isspace))
        (Seq (Plus (NotIn [124; 93]%N))
        (Seq (Star true (Cls Py.isspace))
        (Seq (Chr 124)
        (Seq (Star true (Cls Py.isspace))
        (Seq (Plus (NotIn [93%N]))
             (Chr 93)))))))
  ].

(** ['|'.join(PLACEHOLDER_PATTERNS)]: the alternatives in the order of the
    list. *)
Fixpoint join_alt (first : regex) (others : list regex) : regex :=
  match others with
  | [] => first
  | r :: others' => Alt first (join_alt r others')
  end.

(** [PLACEHOLDER_RE = re.compile('(' + '|'.join(PLACEHOLDER_PATTERNS) + ')')] *)
Definition PLACEHOLDER_RE : regex :=
  match PLACEHOLDER_PATTERNS with
  | [] => Group 1 (Star true (Cls (fun _ => false)))
  | r :: others => Group 1 (join_alt r others)
  end.

(** The mask token [f'__MASK{i}__']. *)
Definition mask_token (i : nat) : str := lit "__MASK" ++ Py.str_of_nat i ++ lit "__".

(** [_repl] of [mask_fragments]; the state is the list [masks]. *)
Definition _repl (m : Match) (masks : list str) : str * list str :=
  let masks := masks ++ [group0 m] in
  (mask_token (length masks - 1), masks).

Definition mask_fragments (s : str) : str * list str :=
  sub PLACEHOLDER_RE _repl s [].

Definition unmask_fragments (s : str) (masks : list str) : str :=
  fold_left (fun s '(i, val) => Py.replace s (mask_token i) val) (Py.enumerate masks) s.

Definition looks_like_english (s : str) : bool :=
  match search CYRILLIC_RE s with
  | None => true
  | Some _ => false
  end.

Definition needs_translation (s : str) : bool := negb (looks_like_english s).

(** What a call of a translation function ends in: the text it returns,
    an exception of the class [Exception], which [except Exception]
    catches, or one that is not of that class ([KeyboardInterrupt],
    [SystemExit]), which it does not catch. *)
Inductive reply : Type :=
| Returned (text : str)
| RaisedException
| RaisedBaseException.

(** What a call can end in: a value, or an exception. *)
Inductive exn : Type :=
| AssertionError     (* the [assert] of [translate_value_literal] *)
| BackendError       (* an [Exception] of the translation function *)
| BackendInterrupt.  (* an exception of it that is no [Exception] *)

Inductive outcome (A : Type) : Type :=
| Ok (a : A)
| Raise (e : exn).
Arguments Ok {A} a.
Arguments Raise {A} e.

(** The two halves of the codec of [translate_value_literal]: lines 109 and
    113, and lines 128 and 129. *)
Definition decode (literal : str) : str :=
  let inner := Py.slice literal 1 (-1) in
  Py.replace inner [BACKSLASH; QUOTE] [QUOTE].

Definition encode (translated : str) : str :=
  let translated_escaped := Py.replace translated [QUOTE] [BACKSLASH; QUOTE] in
  [QUOTE] ++ translated_escaped ++ [QUOTE].

(** [pattern.sub(repl, s)] with a function [repl] that can raise: its
    exception leaves [sub] at once, and the matches after it are not
    looked at. *)
Fixpoint sub_raising_fuel (St : Type) (fuel : nat) (r : regex)
         (repl : Match -> St -> outcome str * St) (s : str) (st : St)
  : outcome str * St :=
  match fuel with
  | O => (Ok s, st)
  | S f =>
      match search r s with
      | None => (Ok s, st)
      | Some (gap, m) =>
          match repl m st with
          | (Raise e, st1) => (Raise e, st1)
          | (Ok new, st1) =>
              match sub_raising_fuel f r repl (rest m) st1 with
              | (Raise e, st2) => (Raise e, st2)
              | (Ok out, st2) => (Ok (gap ++ new ++ out), st2)
              end
          end
      end
  end.

Definition sub_raising (St : Type) (r : regex) (repl : Match -> St -> outcome str * St)
           (s : str) (st : St) : outcome str * St :=
  sub_raising_fuel (length s) r repl s st.

(** The text with such a [repl] called on the matches, from the left, up
    to the first call that raises. *)
Fixpoint replaced_raising (St : Type) (repl : Match -> St -> outcome str * St)
         (ms : list (str * Match)) (tail : str) (st : St) : outcome str * St :=
  match ms with
  | [] => (Ok tail, st)
  | (gap, m) :: ms' =>
      match repl m st with
      | (Raise e, st1) => (Raise e, st1)
      | (Ok new, st1) =>
          match replaced_raising repl ms' tail st1 with
          | (Raise e, st2) => (Raise e, st2)
          | (Ok out, st2) => (Ok (gap ++ new ++ out), st2)
          end
      end
  end.

Section Pipeline.

(** The translation function is a parameter: it is called with a text and
    returns a text or raises, and it may have an effect on the world
    outside (a network call, a counter of calls), of type [World]. *)
Variable World : Type.
Variable translate_func : str -> World -> reply * World.

Definition translate_value_literal (literal : str) (w : World) : outcome str * World :=
  if negb (Py.startswith literal [QUOTE] && Py.endswith literal [QUOTE])
  then (Raise AssertionError, w)
  else
    let inner_unescaped := decode literal in
    if negb (needs_translation inner_unescaped) then (Ok literal, w)
    else
      let '(masked, masks) := mask_fragments inner_unescaped in
      match translate_func masked w with
      | (RaisedException, w') => (Raise BackendError, w')
      | (RaisedBaseException, w') => (Raise BackendInterrupt, w')
      | (Returned translated, w') =>
          let translated := unmask_fragments translated masks in
          (Ok (encode translated), w')
      end.

(** [_replace_value] of [process_file]: [except Exception] catches the
    [AssertionError] and the exceptions of the translation function that
    are of the class [Exception]; another one leaves the function. *)
Definition _replace_value (m : Match) (w : World) : outcome str * World :=
  let prefix := group m 1 in
  let literal := group m 2 in
  match translate_value_literal literal w with
  | (Ok new, w') => (Ok (prefix ++ new), w')
  | (Raise BackendInterrupt, w') => (Raise BackendInterrupt, w')
  | (Raise _, w') => (Ok (prefix ++ literal), w')
  end.

(** [new_text = KV_VALUE_RE.sub(_replace_value, text)] of [process_file]. *)
Definition new_text (text : str) (w : World) : outcome str * World :=
  sub_raising KV_VALUE_RE _replace_value text w.

End Pipeline.

(** ** The translators *)

Module GoogleTranslatorWrapper.
Section Translate.

(** [self.tr.translate], the call of the library. [sleep n] is
    [time.sleep(0.7 * n)], which returns. *)
Variable World : Type.
Variable tr_translate : str -> World -> reply * World.
Variable sleep : nat -> World -> World.

(** The loop [for attempt in range(3)], over the attempts still to make:
    [except Exception] catches an exception of that class, and another one
    leaves the loop and the method. *)
Fixpoint attempts (range : list nat) (text : str) (w : World) : reply * World :=
  match range with
  | [] => (Returned text, w)
  | attempt :: later =>
      match tr_translate text w with
      | (Returned translated, w') => (Returned translated, w')
      | (RaisedException, w') => attempts later text (sleep (attempt + 1) w')
      | (RaisedBaseException, w') => (RaisedBaseException, w')
      end
  end.

Definition translate (text : str) (w : World) : reply * World :=
  attempts (seq 0 3) text w.

End Translate.
End GoogleTranslatorWrapper.

Module ArgosTranslatorWrapper.
Section Translate.

(** [self.t.translate(text, "ru", "uk")], the call of the library. *)
Variable World : Type.
Variable t_translate : str -> World -> reply * World.

(** One call: [except Exception] gives the text back for an exception of
    that class, and another one leaves the method. *)
Definition translate (text : str) (w : World) : reply * World :=
  match t_translate text w with
  | (Returned translated, w') => (Returned translated, w')
  | (RaisedException, w') => (Returned text, w')
  | (RaisedBaseException, w') => (RaisedBaseException, w')
  end.

End Translate.
End ArgosTranslatorWrapper.

(** ** Files *)

(** The errors of the code around the pipeline. *)
Inductive error : Type :=
| ValueError             (* [get_translator]: unknown engine *)
| OSError                (* a file that cannot be opened *)
| UnicodeEncodeError     (* a text that cannot be written as UTF-8 *)
| Interrupted            (* an exception of a library that is no [Exception] *)
| SystemExit (code : nat).

Inductive result (A : Type) : Type :=
| Done (a : A)
| Failed (e : error).
Arguments Done {A} a.
Arguments Failed {A} e.

(** The files: the content of each file that is there, and the paths that
    cannot be opened for writing. The content is the text that reading
    gives, but for the bytes that are not UTF-8: a surrogate stands for
    such a byte. *)
Record FS : Type := mkFS {
  files : str -> option str;
  locked : str -> bool
}.

(** A surrogate, U+D800 to U+DFFF: a character UTF-8 has no bytes for. *)
Definition is_surrogate (c : char) : bool := Range 55296 57343 c.

(** The text has a character that [encoding='utf-8'] cannot write. *)
Definition unencodable (text : str) : bool := existsb is_surrogate text.

(** What [errors='replace'] reads: U+FFFD where the bytes are not UTF-8. *)
Definition decoded (content : str) : str :=
  map (fun c => if is_surrogate c then 65533%N else c) content.

(** [os.path.exists(path)] and [os.path.isfile(path)]; there are no
    directories in the model. *)
Definition exists_ (fs : FS) (path : str) : bool :=
  match files fs path with
  | Some _ => true
  | None => false
  end.

(** [open(path, 'r', encoding='utf-8', errors='replace').read()] *)
Definition read_file (fs : FS) (path : str) : result str :=
  match files fs path with
  | Some content => Done (decoded content)
  | None => Failed OSError
  end.

(** The files with [content] at [path]. *)
Definition with_file (fs : FS) (path content : str) : FS :=
  {| files := fun p => if Py.str_eqb p path then Some content else files fs p;
     locked := locked fs |}.

(** [open(path, 'w', encoding='utf-8').write(text)]: [open] fails on a path
    that cannot be written, and empties the file otherwise; [write] then
    raises on a text that cannot be encoded, and the file stays empty. *)
Definition write_file (fs : FS) (path : str) (text : str) : result unit * FS :=
  if locked fs path then (Failed OSError, fs)
  else if unencodable text then (Failed UnicodeEncodeError, with_file fs path [])
  else (Done tt, with_file fs path text).

(** What a run acts on: the files, the world of the translation service,
    and the lines printed. *)
Record Machine (World : Type) : Type := mkMachine {
  fs : FS;
  world : World;
  stdout : list str;
  stderr : list str
}.

(** The parsed arguments of [main]. *)
Record Namespace : Type := mkNamespace {
  input : str;
  output : option str;
  engine : str
}.

Inductive translator : Type := Google | Argos.

(** The texts of the messages, in Ukrainian: done and saved, the backup,
    and file not found. *)
Definition MSG_SAVED : str :=
  [1043; 1086; 1090; 1086; 1074; 1086; 33; 32; 1047; 1073; 1077; 1088; 1077; 1078; 1077;
   1085; 1086; 58; 32]%N.
Definition MSG_BACKUP : str :=
  [1056; 1077; 1079; 1077; 1088; 1074; 1085; 1072; 32; 1082; 1086; 1087; 1110; 1103; 58;
   32]%N.
Definition MSG_NOT_FOUND : str :=
  [1060; 1072; 1081; 1083; 32; 1085; 1077; 32; 1079; 1085; 1072; 1081; 1076; 1077; 1085;
   1086; 58; 32]%N.

Section Program.

(** The two translation libraries, [time.sleep], [str.lower] and the class
    [\w] are parameters. *)
Variable World : Type.
Variable google : str -> World -> reply * World.
Variable argos : str -> World -> reply * World.
Variable sleep : nat -> World -> World.
Variable lower : str -> str.
Variable isword : char -> bool.

Definition get_translator (engine : str) : result translator :=
  let engine := Py.strip (lower engine) in
  if Py.in_tuple engine [lit "google"; lit "g"] then Done Google
  else if Py.in_tuple engine [lit "argos"; lit "a"; lit "offline"] then Done Argos
  else Failed ValueError.

(** The [translate] method of the wrapper [get_translator] returns. *)
Definition translate_of (t : translator) : str -> World -> reply * World :=
  match t with
  | Google => GoogleTranslatorWrapper.translate google sleep
  | Argos => ArgosTranslatorWrapper.translate argos
  end.

(** [process_file]: the translator, the text read, the backup (what its
    write raises is caught, but a file it opened stays), the substitution,
    whose exception no handler is there for, then the write of the output
    and the two lines printed. *)
Definition process_file (input_path output_path engine : str) (m : Machine World)
  : result unit * Machine World :=
  match get_translator engine with
  | Failed e => (Failed e, m)
  | Done t =>
      let translate_func := translate_of t in
      match read_file (fs m) input_path with
      | Failed e => (Failed e, m)
      | Done text =>
          let backup_path := input_path ++ lit ".bak" in
          let fs1 :=
            if negb (exists_ (fs m) backup_path)
            then snd (write_file (fs m) backup_path text)
            else fs m in
          match new_text translate_func text (world m) with
          | (Raise _, w') =>
              (Failed Interrupted,
               {| fs := fs1; world := w'; stdout := stdout m; stderr := stderr m |})
          | (Ok new, w') =>
              match write_file fs1 output_path new with
              | (Failed e, fs2) =>
                  (Failed e,
                   {| fs := fs2; world := w'; stdout := stdout m; stderr := stderr m |})
              | (Done _, fs2) =>
                  (Done tt,
                   {| fs := fs2; world := w';
                      stdout := stdout m
                                ++ [MSG_SAVED ++ output_path; MSG_BACKUP ++ backup_path];
                      stderr := stderr m |})
              end
          end
      end
  end.

(** [re.sub(r'(\.\w+)?$', '.uk.js', input_path)] *)
Definition default_output (input_path : str) : str :=
  sub_text (run_opt_end (Seq (Chr 46) (Plus (Cls isword)))) (lit ".uk.js") input_path.

(** [main], from the parsed arguments on. *)
Definition main (args : Namespace) (m : Machine World) : result unit * Machine World :=
  let input_path := input args in
  if negb (exists_ (fs m) input_path)
  then (Failed (SystemExit 1),
        {| fs := fs m; world := world m; stdout := stdout m;
           stderr := stderr m ++ [MSG_NOT_FOUND ++ input_path] |})
  else
    let output_path :=
      match output args with
      | Some (c :: o) => c :: o
      | _ => default_output input_path
      end in
    process_file input_path output_path (engine args) m.

End Program.

(** ** The vocabulary of the properties *)

(** The masked text of a scan: the matches are replaced by the mask tokens,
    numbered from [i] on. *)
Fixpoint masked_from (i : nat) (ms : list (str * Match)) (tail : str) : str :=
  match ms with
  | [] => tail
  | (gap, _) :: ms' => gap ++ mask_token i ++ masked_from (S i) ms' tail
  end.

(** The texts matched, in the order of the scan. *)
Definition fragments (ms : list (str * Match)) : list str :=
  map (fun gm => group0 (snd gm)) ms.

(** A text without the word MASK in it. *)
Definition mask_free (s : str) : Prop := Py.contains s (lit "MASK") = false.

(** A literal in quotes: it starts and ends with the quote. *)
Definition in_quotes (t : str) : Prop :=
  Py.startswith t [QUOTE] = true /\ Py.endswith t [QUOTE] = true.

(** The quotes strictly inside [t] each come right after a backslash. *)
Definition inner_quotes_escaped (t : str) : Prop :=
  forall i, 0 < i -> S i < length t -> nth_error t i = Some QUOTE ->
            nth_error t (i - 1) = Some BACKSLASH.

(** The text of [new_text] around the literals: the matches of a scan with
    the literal of the [i]-th one replaced by the [i]-th text of [outs]. *)
Fixpoint with_literals (ms : list (str * Match)) (outs : list str) (tail : str) : str :=
  match ms, outs with
  | (gap, m) :: ms', out :: outs' => gap ++ group m 1 ++ out ++ with_literals ms' outs' tail
  | _, _ => tail
  end.

(** A text with a backslash put before each of its quotes, as [encode] does. *)
Definition escaped (x : str) : str := Py.replace x [QUOTE] [BACKSLASH; QUOTE].

(** A text that is empty or starts with a character that is none of A, S
    and K. *)
Definition starts_apart (v : str) : Prop :=
  match v with
  | [] => True
  | h :: _ => h <> 65%N /\ h <> 83%N /\ h <> 75%N
  end.

(** The text [y] after a piece: nothing, or a text that starts with two
    underscores, as a token does. *)
Definition token_or_end (y : str) : Prop :=
  y = [] \/ exists t, y = 95%N :: 95%N :: t.

(** The gaps and the tail of a scan have no MASK in them. *)
Definition pieces_free (ms : list (str * Match)) (tail : str) : Prop :=
  Forall (fun gm => mask_free (fst gm)) ms /\ mask_free tail.

(** One step of the body of a string literal: a backslash and the
    character after it, or a character that is no quote. *)
Definition string_unit (u : str) : Prop :=
  (exists x, u = [BACKSLASH; x]) \/ (exists x, u = [x] /\ x <> QUOTE).

(** A text made of pieces that satisfy [P]. *)
Inductive star_text (P : str -> Prop) : str -> Prop :=
| star_text_nil : star_text P []
| star_text_app u v : P u -> star_text P v -> star_text P (u ++ v).

(** A text without a Cyrillic character. *)
Definition cyrillic_free (s : str) : Prop := existsb (Range 1024 1279) s = false.

(** A text with none of the characters a protected fragment starts with:
    the percent sign, the opening brace, the less-than sign, the ampersand
    and the opening bracket. *)
Definition plain (s : str) : Prop :=
  forallb (fun c => negb (existsb (N.eqb c) [37; 123; 60; 38; 91]%N)) s = true.



(** The literals of a scan whose decoded text needs translation. *)
Definition to_translate (ms : list (str * Match)) : list (str * Match) :=
  filter (fun gm => needs_translation (decode (group (snd gm) 2))) ms.

(** A translation function with a log of the texts it is called with
    beside its world, the last call last. *)
Definition logged (World : Type) (f : str -> World -> reply * World)
  : str -> World * list str -> reply * (World * list str) :=
  fun t wl => (fst (f t (fst wl)), (snd (f t (fst wl)), snd wl ++ [t])).

(** The calls due for the matches of a scan: the masked decoded text of
    each literal that needs translation, in the order of the scan. *)
Definition calls_of (ms : list (str * Match)) : list str :=
  map (fun gm => fst (mask_fragments (decode (group (snd gm) 2)))) (to_translate ms).

(** The library of an engine. *)
Definition library_of (World : Type) (google argos : str -> World -> reply * World)
           (t : translator) : str -> World -> reply * World :=
  match t with
  | Google => google
  | Argos => argos
  end.

(** A path that does not end with a newline. *)
Definition no_final_newline (path : str) : Prop := forall q, path <> q ++ [NEWLINE].

(** A path that does not end with an extension: a dot and one or more
    characters of the class [\w], up to the end. *)
Definition no_extension (isword : char -> bool) (path : str) : Prop :=
  forall q w, path = q ++ 46%N :: w -> w = [] \/ forallb isword w = false.

(** The pattern of the extension, [\.\w+], and the matcher of
    [(\.\w+)?$]. *)
Definition EXT (isword : char -> bool) : regex := Seq (Chr 46) (Plus (Cls isword)).

Definition ext_matcher (isword : char -> bool) : str -> list (str * captures) :=
  run_opt_end (EXT isword).

(** A place where the pattern of the default output does not match: [$]
    does not hold there, nor after any extension that starts there. *)
Definition no_match_here (isword : char -> bool) (s : str) : Prop :=
  at_end s = false /\
  forall u s', s = 46%N :: u ++ s' -> u <> [] -> forallb isword u = true ->
               at_end s' = false.

(** The files after the backup step of [process_file]. *)
Definition after_backup (World : Type) (m : Machine World) (input_path text : str) : FS :=
  if negb (exists_ (fs m) (input_path ++ lit ".bak"))
  then snd (write_file (fs m) (input_path ++ lit ".bak") text)
  else fs m.

(** *** Backends and texts of the sample runs *)

(** A backend that returns its input. *)
Definition echo (t : str) (w : unit) : reply * unit := (Returned t, w).

(** A backend that always raises an [Exception]. *)
Definition failing (t : str) (w : unit) : reply * unit := (RaisedException, w).


(** A backend that returns a lone surrogate, U+D83D. *)
Definition garbling (t : str) (w : unit) : reply * unit := (Returned [55357%N], w).

(** A backend that returns the empty text. *)
Definition silent (t : str) (w : unit) : reply * unit := (Returned [], w).

(** A backend that returns its input and counts its calls. *)
Definition counting (t : str) (calls : nat) : reply * nat := (Returned t, S calls).

(** The text of the specification's example in Russian, with the
    placeholders [%1] and [{count}] where the English text has them. *)
Definition hello_ru : str :=
  [1055; 1088; 1080; 1074; 1077; 1090; 32]%N ++ lit "%1, " ++ [1091; 32; 1074; 1072; 1089; 32]%N
  ++ lit "{count} " ++ [1101; 1083; 1077; 1084; 1077; 1085; 1090; 1086; 1074]%N.

(** What the backend is called with for [hello_ru]. *)
Definition hello_ru_masked : str :=
  [1055; 1088; 1080; 1074; 1077; 1090; 32]%N ++ mask_token 0 ++ lit ", "
  ++ [1091; 32; 1074; 1072; 1089; 32]%N ++ mask_token 1 ++ lit " "
  ++ [1101; 1083; 1077; 1084; 1077; 1085; 1090; 1086; 1074]%N.

(** The files and the machine of the sample runs: one file, [ru.js]. *)
Definition sample_text : str := lit "x: " ++ [QUOTE] ++ hello_ru ++ [QUOTE].

Definition sample_fs : FS :=
  {| files := fun p => if Py.str_eqb p (lit "ru.js") then Some sample_text else None;
     locked := fun _ => false |}.

Definition sample_machine : Machine unit :=
  {| fs := sample_fs; world := tt; stdout := []; stderr := [] |}.

(** The same with a backup from an earlier run, and a backup path that
    cannot be written. *)
Definition sample_machine_with_backup : Machine unit :=
  {| fs := {| files := fun p => if Py.str_eqb p (lit "ru.js") then Some sample_text
                                else if Py.str_eqb p (lit "ru.js.bak") then Some (lit "old")
                                     else None;
              locked := fun p => Py.str_eqb p (lit "ru.js.bak") |};
     world := tt; stdout := []; stderr := [] |}.

(** The services and [str.lower] of the sample runs: a service that
    returns its input, no effect of sleeping, and names in lower case. *)
Definition no_sleep (n : nat) (w : unit) : unit := w.
Definition as_is (s : str) : str := s.

(** The class [\w] on ASCII, for the sample runs. *)
Definition ascii_word (c : char) : bool :=
  Range 97 122 c || Range 65 90 c || Range 48 57 c || (c =? 95)%N.

(** * Properties *)

(** ** Strings *)

Module PyFacts.
Import Py.

Lemma startswith_nil (s : str) : startswith s [] = true.
Proof. destruct s; reflexivity. Qed.

Lemma startswith_app (p t : str) : startswith (p ++ t) p = true.
Proof.
  induction p as [|a p IH]; simpl.
  - apply startswith_nil.
  - rewrite N.eqb_refl. exact IH.
Qed.

Lemma startswith_inv (p s : str) :
  startswith s p = true -> exists t, s = p ++ t.
Proof.
  revert s. induction p as [|a p IH]; intros s H.
  - exists s. reflexivity.
  - destruct s as [|b s]; simpl in H; [discriminate|].
    apply andb_true_iff in H. destruct H as [Hab Hs].
    apply N.eqb_eq in Hab. subst b.
    destruct (IH _ Hs) as [t ->]. exists t. reflexivity.
Qed.

Lemma startswith_spec (p s : str) :
  startswith s p = true <-> exists t, s = p ++ t.
Proof.
  split.
  - apply startswith_inv.
  - intros [t ->]. apply startswith_app.
Qed.

Lemma startswith_empty (a : char) (p : str) : startswith [] (a :: p) = false.
Proof. reflexivity. Qed.

(** *** [replace] *)

Lemma replace_fuel_enough (old new : str) :
  old <> [] ->
  forall n m s, length s <= n -> length s <= m ->
    replace_fuel n s old new = replace_fuel m s old new.
Proof.
  intros Hold. induction n as [|n IH]; intros m s Hn Hm.
  - destruct s; [|simpl in Hn; lia].
    destruct m; simpl; [reflexivity|].
    destruct old; [congruence|]. reflexivity.
  - destruct m as [|m].
    + destruct s; [|simpl in Hm; lia].
      simpl. destruct old; [congruence|]. reflexivity.
    + simpl. destruct (startswith s old) eqn:E.
      * f_equal. apply IH.
        all: rewrite length_skipn; destruct old; [congruence|];
          destruct s; simpl in *; [discriminate|lia].
      * destruct s as [|c s]; [reflexivity|].
        f_equal. apply IH; simpl in *; lia.
Qed.

Lemma replace_nil (old new : str) : old <> [] -> replace [] old new = [].
Proof. destruct old; [congruence|reflexivity]. Qed.

Lemma replace_hit (s old new : str) :
  old <> [] -> startswith s old = true ->
  replace s old new = new ++ replace (skipn (length old) s) old new.
Proof.
  intros Hold H. unfold replace. destruct old as [|a old]; [congruence|].
  destruct s as [|c s]; [discriminate|].
  cbn [length replace_fuel]. rewrite H. f_equal.
  apply replace_fuel_enough; [discriminate| |lia].
  rewrite length_skipn. simpl. lia.
Qed.

Lemma replace_hit_app (old new t : str) :
  old <> [] -> replace (old ++ t) old new = new ++ replace t old new.
Proof.
  intros Hold. rewrite replace_hit by (auto using startswith_app).
  rewrite skipn_app, skipn_all, Nat.sub_diag. reflexivity.
Qed.

Lemma replace_miss (c : char) (s old new : str) :
  startswith (c :: s) old = false ->
  replace (c :: s) old new = c :: replace s old new.
Proof.
  intros H. unfold replace. destruct old as [|a old]; [discriminate|].
  cbn [length replace_fuel]. rewrite H. reflexivity.
Qed.

(** With one character to look for, [replace] works character by
    character. *)
Lemma replace_char (a : char) (new s : str) :
  replace s [a] new = flat_map (fun c => if (a =? c)%N then new else [c]) s.
Proof.
  induction s as [|c s IH]; [reflexivity|].
  cbn [flat_map]. destruct (a =? c)%N eqn:E.
  - apply N.eqb_eq in E. subst c.
    change (a :: s) with ([a] ++ s). rewrite replace_hit_app by discriminate.
    rewrite IH. reflexivity.
  - rewrite replace_miss by (simpl; rewrite E; reflexivity).
    rewrite IH. reflexivity.
Qed.

Lemma replace_char_app (a : char) (new s t : str) :
  replace (s ++ t) [a] new = replace s [a] new ++ replace t [a] new.
Proof. rewrite !replace_char. apply flat_map_app. Qed.

(** *** [contains] *)

Lemma contains_cons (c : char) (s p : str) :
  contains (c :: s) p = startswith (c :: s) p || contains s p.
Proof. reflexivity. Qed.

Lemma contains_app_l (s t p : str) :
  contains (s ++ t) p = false -> contains s p = false.
Proof.
  induction s as [|c s IH]; intros H.
  - destruct p; [destruct t; discriminate|reflexivity].
  - cbn [app] in H. rewrite contains_cons in *.
    apply orb_false_iff in H. destruct H as [H1 H2].
    rewrite (IH H2), orb_false_r.
    destruct (startswith (c :: s) p) eqn:E; [|reflexivity].
    apply startswith_inv in E. destruct E as [u E].
    change (c :: s ++ t) with ((c :: s) ++ t) in H1.
    rewrite E, <- app_assoc, startswith_app in H1. discriminate.
Qed.

Lemma contains_app_r (s t p : str) :
  contains (s ++ t) p = false -> contains t p = false.
Proof.
  induction s as [|c s IH]; intros H; [exact H|].
  cbn [app] in H. rewrite contains_cons in H.
  apply orb_false_iff in H. apply IH, H.
Qed.

(** *** The digits of a number *)

Lemma digits_ascii (d : Decimal.uint) : forallb is_ascii_digit (digits d) = true.
Proof. induction d; simpl; auto. Qed.

Lemma digits_inj (d e : Decimal.uint) : digits d = digits e -> d = e.
Proof.
  revert e. induction d; intros e H; destruct e; simpl in H;
    try discriminate; try reflexivity;
    injection H as H; f_equal; auto.
Qed.

Lemma str_of_nat_inj (n m : nat) : str_of_nat n = str_of_nat m -> n = m.
Proof.
  intros H. apply DecimalNat.Unsigned.to_uint_inj, digits_inj, H.
Qed.

(** Two runs of digits that are each followed by a character that is no
    digit, one a prefix of the other, are the same run. *)
Lemma digit_run_eq (u v : str) (a : char) (x y : str) :
  forallb is_ascii_digit u = true -> forallb is_ascii_digit v = true ->
  is_ascii_digit a = false ->
  startswith (v ++ a :: y) (u ++ a :: x) = true -> u = v.
Proof.
  revert v. induction u as [|b u IH]; intros v Hu Hv Ha H.
  - destruct v as [|b v]; [reflexivity|].
    simpl in H, Hv. apply andb_true_iff in H, Hv.
    destruct H as [H _], Hv as [Hv _]. apply N.eqb_eq in H. congruence.
  - simpl in Hu. apply andb_true_iff in Hu. destruct Hu as [Hb Hu].
    destruct v as [|b' v]; simpl in H; apply andb_true_iff in H;
      destruct H as [H1 H2]; apply N.eqb_eq in H1.
    + congruence.
    + simpl in Hv. apply andb_true_iff in Hv. destruct Hv as [_ Hv].
      subst b'. f_equal. eapply IH; eauto.
Qed.

(** *** Slices *)

Lemma slice_inner (a b : char) (body : str) :
  slice (a :: body ++ [b]) 1 (-1) = body.
Proof.
  unfold slice, bound. cbn [length]. rewrite length_app. cbn [length].
  replace (1 <? 0)%Z with false by reflexivity.
  replace (-1 <? 0)%Z with true by reflexivity.
  replace (Z.to_nat 1) with 1 by reflexivity.
  replace (Z.to_nat (-1 + Z.of_nat (S (length body + 1)))) with (length body + 1) by lia.
  rewrite !Nat.min_l by lia.
  cbn [skipn]. replace (length body + 1 - 1) with (length body + 0) by lia.
  rewrite firstn_app_2. simpl. apply app_nil_r.
Qed.

End PyFacts.

(** ** The matcher *)

Module ReFacts.
Import PyFacts.

Lemma firstn_consumed (pre s' : str) :
  firstn (length (pre ++ s') - length s') (pre ++ s') = pre.
Proof.
  rewrite length_app. replace (length pre + length s' - length s') with (length pre + 0) by lia.
  rewrite firstn_app_2. simpl. apply app_nil_r.
Qed.

Lemma in_star_loop body greedy fuel s c x :
  In x (star_loop body greedy fuel s c) ->
  x = (s, c) \/
  exists f s1 c1, fuel = S f /\ In (s1, c1) (body s c) /\ length s1 < length s /\
                  In x (star_loop body greedy f s1 c1).
Proof.
  intros H.
  assert (Hx : x = (s, c) \/
               In x match fuel with
                    | O => []
                    | S f =>
                        flat_map (fun '(s', c') =>
                                    if length s' <? length s
                                    then star_loop body greedy f s' c' else [])
                                 (body s c)
                    end).
  { destruct fuel, greedy; simpl in H.
    - destruct H as [H|[]]; auto.
    - destruct H as [H|[]]; auto.
    - apply in_app_or in H. destruct H as [H|[H|[]]]; auto.
    - destruct H as [H|H]; auto. }
  destruct Hx as [Hx|Hx]; [left; exact Hx|right].
  destruct fuel as [|f]; [destruct Hx|].
  apply in_flat_map in Hx. destruct Hx as [[s1 c1] [Hin Hx]].
  destruct (Nat.ltb_spec (length s1) (length s)) as [Hlt|]; [|destruct Hx].
  exists f, s1, c1. auto.
Qed.

(** The two cases of a way through a star: it stops here, or it goes round
    once, with progress, and goes on. *)
Ltac star_cases H :=
  apply in_star_loop in H;
  destruct H as [H|[f' [s1 [c1 [Hf [H1 [_ H2]]]]]]].

(** Every way a pattern matches leaves a suffix of the text, and a proper
    one when the pattern is not nullable. *)
Lemma run_split (r : regex) :
  forall s c s' c', In (s', c') (run r s c) ->
    exists pre, s = pre ++ s' /\ (nullable r = false -> pre <> []).
Proof.
  induction r as [p|a IHa b IHb|a IHa b IHb|g r1 IH|n r1 IH]; intros s c s' c' H.
  - destruct s as [|x s]; simpl in H; [destruct H|].
    destruct (p x); [|destruct H].
    destruct H as [H|[]]. injection H as <- <-.
    exists [x]. split; [reflexivity|discriminate].
  - simpl in H. apply in_flat_map in H. destruct H as [[s1 c1] [H1 H2]].
    destruct (IHa _ _ _ _ H1) as [p1 [-> N1]].
    destruct (IHb _ _ _ _ H2) as [p2 [-> N2]].
    exists (p1 ++ p2). split; [apply app_assoc|].
    simpl. intros Hn. apply andb_false_iff in Hn.
    intros E. apply app_eq_nil in E. destruct E as [-> ->].
    destruct Hn as [Hn|Hn]; [apply N1 in Hn|apply N2 in Hn]; congruence.
  - simpl in H. apply in_app_or in H. simpl.
    destruct H as [H|H]; [destruct (IHa _ _ _ _ H) as [pre [-> N1]]
                         |destruct (IHb _ _ _ _ H) as [pre [-> N1]]];
      exists pre; (split; [reflexivity|]); intros Hn;
      apply orb_false_iff in Hn; apply N1, Hn.
  - simpl in H. simpl. 
    assert (G : forall fuel s c, In (s', c') (star_loop (run r1) g fuel s c) ->
                                 exists pre, s = pre ++ s').
    { clear s c H. induction fuel as [|f IHf]; intros s c H; star_cases H.
      - injection H as <- <-. exists []. reflexivity.
      - discriminate.
      - injection H as <- <-. exists []. reflexivity.
      - injection Hf as <-.
        destruct (IH _ _ _ _ H1) as [p1 [-> _]].
        destruct (IHf _ _ H2) as [p2 ->].
        exists (p1 ++ p2). apply app_assoc. }
    destruct (G _ _ _ H) as [pre ->]. exists pre. split; [reflexivity|discriminate].
  - simpl in H. apply in_map_iff in H. destruct H as [[s1 c1] [E H]].
    injection E as <- _. apply (IH _ _ _ _ H).
Qed.

(** A pattern without groups leaves the captures as they are. *)
Lemma run_no_group (r : regex) :
  has_group r = false ->
  forall s c s' c', In (s', c') (run r s c) -> c' = c.
Proof.
  induction r as [p|a IHa b IHb|a IHa b IHb|g r1 IH|n r1 IH]; simpl; intros Hg s c s' c' H.
  - destruct s as [|x s]; [destruct H|].
    destruct (p x); [|destruct H]. destruct H as [H|[]]. congruence.
  - apply orb_false_iff in Hg. destruct Hg as [Ha Hb].
    apply in_flat_map in H. destruct H as [[s1 c1] [H1 H2]].
    rewrite (IHb Hb _ _ _ _ H2). apply (IHa Ha _ _ _ _ H1).
  - apply orb_false_iff in Hg. destruct Hg as [Ha Hb].
    apply in_app_or in H. destruct H as [H|H]; eauto.
  - remember (length s) as fuel eqn:Hfuel. clear Hfuel. revert s c H.
    induction fuel as [|f IHf]; intros s c H; star_cases H; try congruence.
    injection Hf as <-. rewrite (IHf _ _ H2). apply (IH Hg _ _ _ _ H1).
  - discriminate.
Qed.

(** *** [match] and [search] *)

Lemma match_at_split (r : regex) (s : str) (m : Match) :
  match_at r s = Some m ->
  s = group0 m ++ rest m /\ (nullable r = false -> group0 m <> []).
Proof.
  unfold match_at. destruct (run r s []) as [|[s' c] l] eqn:E; [discriminate|].
  intros H. injection H as <-. simpl.
  destruct (@run_split r s [] s' c) as [pre [-> Hn]]; [rewrite E; left; reflexivity|].
  rewrite firstn_consumed. auto.
Qed.

Lemma search_split (r : regex) (s gap : str) (m : Match) :
  search r s = Some (gap, m) ->
  s = gap ++ group0 m ++ rest m /\
  match_at r (group0 m ++ rest m) = Some m /\
  forall i, i < length gap -> match_at r (skipn i s) = None.
Proof.
  revert gap. induction s as [|a s IH]; intros gap H; simpl in H.
  - destruct (match_at r []) as [m'|] eqn:E; [|discriminate].
    injection H as <- <-. destruct (match_at_split _ _ E) as [E' _].
    simpl. rewrite <- E'. repeat split; auto. simpl. intros i Hi. lia.
  - destruct (match_at r (a :: s)) as [m'|] eqn:E.
    + injection H as <- <-. destruct (match_at_split _ _ E) as [E' _].
      simpl. rewrite <- E'. repeat split; auto. simpl. intros i Hi. lia.
    + destruct (search r s) as [[g' m']|] eqn:Es; [|discriminate].
      injection H as <- <-. destruct (IH _ eq_refl) as [E1 [E2 E3]].
      repeat split; auto.
      * simpl. f_equal. exact E1.
      * intros [|i] Hi; [exact E|]. simpl in Hi. simpl. apply E3. lia.
Qed.

Lemma search_none (r : regex) (s : str) :
  search r s = None -> forall i, match_at r (skipn i s) = None.
Proof.
  induction s as [|a s IH]; simpl; intros H i.
  - destruct (match_at r []) eqn:E; [discriminate|]. destruct i; exact E.
  - destruct (match_at r (a :: s)) eqn:E; [discriminate|].
    destruct (search r s) as [[g' m']|] eqn:Es; [discriminate|].
    destruct i as [|i]; [exact E|]. simpl. apply IH. reflexivity.
Qed.

(** *** [sub] and [finditer] *)

Lemma finditer_fuel_scanned (r : regex) :
  nullable r = false ->
  forall fuel s, length s <= fuel ->
    scanned r s (fst (finditer_fuel fuel r s)) (snd (finditer_fuel fuel r s)).
Proof.
  intros Hn. induction fuel as [|f IH]; intros s Hs; simpl.
  - destruct s; [|simpl in Hs; lia].
    destruct (search r []) as [[gap m]|] eqn:E; [|constructor; exact E].
    destruct (search_split _ _ E) as [E1 [E2 _]].
    destruct (match_at_split _ _ E2) as [_ E3].
    symmetry in E1. apply app_eq_nil in E1. destruct E1 as [_ E1].
    apply app_eq_nil in E1. destruct E1 as [E1 _]. destruct (E3 Hn E1).
  - destruct (search r s) as [[gap m]|] eqn:E; [|constructor; exact E].
    destruct (search_split _ _ E) as [E1 [E2 _]].
    destruct (match_at_split _ _ E2) as [_ E3]. specialize (E3 Hn).
    assert (Hl : length (rest m) <= f).
    { rewrite E1, !length_app in Hs. destruct (group0 m); [congruence|]. simpl in Hs. lia. }
    specialize (IH _ Hl).
    destruct (finditer_fuel f r (rest m)) as [ms tail]. simpl in *.
    econstructor; eauto.
Qed.

Lemma finditer_scanned (r : regex) (s : str) :
  nullable r = false ->
  scanned r s (fst (finditer r s)) (snd (finditer r s)).
Proof. intros Hn. apply finditer_fuel_scanned; auto. Qed.

Lemma scanned_original (r : regex) (s : str) ms tail :
  scanned r s ms tail -> s = original ms tail.
Proof.
  induction 1 as [s H|s gap m ms tail H _ IH]; [reflexivity|].
  simpl. rewrite <- IH. apply (search_split _ _ H).
Qed.

Lemma sub_fuel_replaced (St : Type) (r : regex) (repl : Match -> St -> str * St) :
  forall fuel s st,
    sub_fuel fuel r repl s st =
    replaced repl (fst (finditer_fuel fuel r s)) (snd (finditer_fuel fuel r s)) st.
Proof.
  induction fuel as [|f IH]; intros s st; simpl; [reflexivity|].
  destruct (search r s) as [[gap m]|]; [|reflexivity].
  specialize (IH (rest m)).
  destruct (finditer_fuel f r (rest m)) as [ms tail]. simpl in *.
  destruct (repl m st) as [new st1]. rewrite IH. reflexivity.
Qed.

(** [sub] calls [repl] on the matches [finditer] yields, in their order,
    and puts what it returns in their places. *)
Lemma sub_replaced (St : Type) (r : regex) (repl : Match -> St -> str * St) s st :
  sub r repl s st = replaced repl (fst (finditer r s)) (snd (finditer r s)) st.
Proof. apply sub_fuel_replaced. Qed.

Lemma sub_raising_fuel_replaced
      (St : Type) (r : regex) (repl : Match -> St -> outcome str * St) :
  forall fuel s st,
    sub_raising_fuel fuel r repl s st =
    replaced_raising repl (fst (finditer_fuel fuel r s)) (snd (finditer_fuel fuel r s)) st.
Proof.
  induction fuel as [|f IH]; intros s st; simpl; [reflexivity|].
  destruct (search r s) as [[gap m]|]; [|reflexivity].
  specialize (IH (rest m)).
  destruct (finditer_fuel f r (rest m)) as [ms tail]. simpl in *.
  destruct (repl m st) as [[new|e] st1]; [|reflexivity]. rewrite IH. reflexivity.
Qed.

(** The same for a [repl] that can raise: it is called on the matches
    [finditer] yields, in their order, up to the first call that raises. *)
Lemma sub_raising_replaced
      (St : Type) (r : regex) (repl : Match -> St -> outcome str * St) s st :
  sub_raising r repl s st =
  replaced_raising repl (fst (finditer r s)) (snd (finditer r s)) st.
Proof. apply sub_raising_fuel_replaced. Qed.

Lemma nullable_KV_VALUE_RE : nullable KV_VALUE_RE = false.
Proof. reflexivity. Qed.

Lemma nullable_PLACEHOLDER_RE : nullable PLACEHOLDER_RE = false.
Proof. reflexivity. Qed.

(** The patterns of the program match no empty text. *)
Lemma run_consumes (r : regex) (s : str) (m : Match) :
  r = KV_VALUE_RE \/ r = PLACEHOLDER_RE ->
  match_at r s = Some m -> group0 m <> [].
Proof.
  intros Hr H. apply (match_at_split _ _ H).
  destruct Hr as [-> | ->]; reflexivity.
Qed.

(** Two groups without groups inside, one after the other: the captures
    are the two texts matched. *)
Lemma run_two_groups (a b : regex) (n k : nat) s c s' c' :
  has_group a = false -> has_group b = false ->
  In (s', c') (run (Seq (Group n a) (Group k b)) s c) ->
  exists p1 p2, s = p1 ++ p2 ++ s' /\ c' = (k, p2) :: (n, p1) :: c /\
                (nullable a = false -> p1 <> []) /\
                In (s', (n, p1) :: c) (run b (p2 ++ s') ((n, p1) :: c)).
Proof.
  intros Ha Hb Hin. cbn [run] in Hin.
  apply in_flat_map in Hin. destruct Hin as [[s1 c1] [H1 H2]].
  apply in_map_iff in H1. destruct H1 as [[s1' c1'] [E1 H1]].
  apply in_map_iff in H2. destruct H2 as [[s2' c2'] [E2 H2]].
  injection E1 as <- <-. injection E2 as <- <-.
  pose proof (run_no_group _ Hb _ _ _ _ H2) as ->.
  pose proof (run_no_group _ Ha _ _ _ _ H1) as ->.
  destruct (run_split _ _ _ _ _ H1) as [p1 [-> N1]].
  destruct (run_split _ _ _ _ _ H2) as [p2 [E2 N2]]. subst s1'.
  rewrite !firstn_consumed in H2. rewrite !firstn_consumed.
  exists p1, p2. auto.
Qed.

(** A match of [KV_VALUE_RE] is its two groups, one after the other. *)
Lemma kv_groups (s : str) (m : Match) :
  match_at KV_VALUE_RE s = Some m ->
  group0 m = group m 1 ++ group m 2 /\ group m 1 <> [].
Proof.
  intros H. unfold match_at in H.
  destruct (run KV_VALUE_RE s []) as [|[s' c] l] eqn:E; [discriminate|].
  injection H as <-. simpl.
  assert (Hin : In (s', c) (run KV_VALUE_RE s [])) by (rewrite E; left; reflexivity).
  apply run_two_groups in Hin; [|reflexivity|reflexivity].
  destruct Hin as [p1 [p2 [-> [-> [N1 _]]]]].
  unfold group. simpl.
  replace (p1 ++ p2 ++ s') with ((p1 ++ p2) ++ s') by (symmetry; apply app_assoc).
  rewrite firstn_consumed. split; [reflexivity|]. apply N1. reflexivity.
Qed.

(** *** The literals of [KV_VALUE_RE] *)

Lemma run_Cls (p : char -> bool) s c s' c' :
  In (s', c') (run (Cls p) s c) -> exists x, s = x :: s' /\ p x = true /\ c' = c.
Proof.
  destruct s as [|x s]; simpl; [intros []|].
  destruct (p x) eqn:E; [|intros []].
  intros [H|[]]. injection H as <- <-. exists x. auto.
Qed.

(** What a star consumes is made of what its body consumes. *)
Lemma star_loop_text (P : str -> Prop) body :
  (forall s c s' c', In (s', c') (body s c) -> exists u, s = u ++ s' /\ P u) ->
  forall greedy fuel s c s' c',
    In (s', c') (star_loop body greedy fuel s c) ->
    exists t, s = t ++ s' /\ star_text P t.
Proof.
  intros Hbody greedy. induction fuel as [|f IH]; intros s c s' c' H; star_cases H.
  - injection H as <- <-. exists []. split; [reflexivity|constructor].
  - discriminate.
  - injection H as <- <-. exists []. split; [reflexivity|constructor].
  - injection Hf as <-.
    destruct (Hbody _ _ _ _ H1) as [u [-> Hu]].
    destruct (IH _ _ _ _ H2) as [t [-> Ht]].
    exists (u ++ t). split; [apply app_assoc|constructor; assumption].
Qed.

Lemma run_string_unit s c s' c' :
  In (s', c') (run (Alt (Seq (Chr BACKSLASH) Dot) (NotIn [QUOTE; BACKSLASH])) s c) ->
  exists u, s = u ++ s' /\ string_unit u.
Proof.
  cbn [run]. intros H. apply in_app_or in H. destruct H as [H|H].
  - apply in_flat_map in H. destruct H as [[s1 c1] [H1 H2]].
    apply run_Cls in H1. destruct H1 as [x [-> [Hx _]]].
    apply run_Cls in H2. destruct H2 as [y [-> _]].
    apply N.eqb_eq in Hx. subst x.
    exists [BACKSLASH; y]. split; [reflexivity|]. left. exists y. reflexivity.
  - apply run_Cls in H. destruct H as [x [-> [Hx _]]].
    exists [x]. split; [reflexivity|]. right. exists x. split; [reflexivity|].
    intros ->. discriminate.
Qed.

Lemma run_STRING_RE s c s' c' :
  In (s', c') (run STRING_RE s c) ->
  exists t, s = [QUOTE] ++ t ++ [QUOTE] ++ s' /\ star_text string_unit t.
Proof.
  unfold STRING_RE. cbn [run]. intros H.
  apply in_flat_map in H. destruct H as [[s1 c1] [H1 H]].
  apply in_flat_map in H. destruct H as [[s2 c2] [H2 H3]].
  apply run_Cls in H1. destruct H1 as [x [-> [Hx _]]].
  apply run_Cls in H3. destruct H3 as [y [-> [Hy _]]].
  apply N.eqb_eq in Hx, Hy. subst x y.
  unfold STRING_BODY in H2. cbn [run] in H2.
  apply (star_loop_text string_unit) in H2; [|apply run_string_unit].
  destruct H2 as [t [-> Ht]]. exists t. auto.
Qed.

(** The literal of a match of [KV_VALUE_RE]: a quote, steps of the body of
    a string literal, a quote. *)
Lemma kv_literal (s : str) (m : Match) :
  match_at KV_VALUE_RE s = Some m ->
  exists t, group m 2 = [QUOTE] ++ t ++ [QUOTE] /\ star_text string_unit t.
Proof.
  intros H. unfold match_at in H.
  destruct (run KV_VALUE_RE s []) as [|[s' c] l] eqn:E; [discriminate|].
  injection H as <-.
  assert (Hin : In (s', c) (run KV_VALUE_RE s [])) by (rewrite E; left; reflexivity).
  apply run_two_groups in Hin; [|reflexivity|reflexivity].
  destruct Hin as [p1 [p2 [-> [-> [_ H2]]]]].
  apply run_STRING_RE in H2. destruct H2 as [t [E2 Ht]].
  exists t. split; [|exact Ht]. unfold group. simpl.
  rewrite !app_assoc in E2. apply app_inv_tail in E2.
  rewrite E2, <- !app_assoc. reflexivity.
Qed.

End ReFacts.

(** ** The claims of the specification *)

Import PyFacts ReFacts.

(** *** The script detector *)

Lemma needs_translation_cons (a : char) (s : str) :
  needs_translation (a :: s) = Range 1024 1279 a || needs_translation s.
Proof.
  unfold needs_translation, looks_like_english.
  cbn [search]. unfold match_at. cbn [run CYRILLIC_RE].
  destruct (Range 1024 1279 a); [reflexivity|].
  destruct (search CYRILLIC_RE s) as [[gap m]|]; reflexivity.
Qed.

Lemma needs_translation_existsb (s : str) :
  needs_translation s = existsb (Range 1024 1279) s.
Proof.
  induction s as [|a s IH]; [reflexivity|].
  rewrite needs_translation_cons, IH. reflexivity.
Qed.

(** C7: [needs_translation text] is true if and only if [text] has a
    character in the Cyrillic range U+0400 to U+04FF (1024 to 1279). It is a
    total function to [bool]: there is no state for it to change and no way
    for it to fail. *)
Theorem needs_translation_iff_cyrillic (text : str) :
  needs_translation text = true <->
  exists c, In c text /\ (1024 <= c /\ c <= 1279)%N.
Proof.
  rewrite needs_translation_existsb, existsb_exists.
  split; intros [c [Hin Hc]]; exists c; (split; [exact Hin|]).
  - unfold Range in Hc. apply andb_true_iff in Hc.
    destruct Hc as [H1 H2]. apply N.leb_le in H1, H2. auto.
  - unfold Range. apply andb_true_iff. split; apply N.leb_le; tauto.
Qed.

(** *** The codec *)

Lemma escaped_head (x : str) :
  Py.startswith (Py.replace x [QUOTE] [BACKSLASH; QUOTE]) [QUOTE] = false.
Proof.
  rewrite replace_char. destruct x as [|c x]; [reflexivity|].
  cbn [flat_map]. destruct (QUOTE =? c)%N eqn:E; [reflexivity|].
  cbn [app Py.startswith]. rewrite E. reflexivity.
Qed.

Lemma unescape_escape (x : str) :
  Py.replace (Py.replace x [QUOTE] [BACKSLASH; QUOTE]) [BACKSLASH; QUOTE] [QUOTE] = x.
Proof.
  induction x as [|c x IH]; [reflexivity|].
  change (c :: x) with ([c] ++ x). rewrite replace_char_app.
  rewrite (replace_char QUOTE _ [c]). cbn [flat_map]. rewrite app_nil_r.
  destruct (QUOTE =? c)%N eqn:E.
  - apply N.eqb_eq in E. subst c.
    rewrite replace_hit_app by discriminate. rewrite IH. reflexivity.
  - cbn [app]. rewrite replace_miss; [rewrite IH; reflexivity|].
    cbn [Py.startswith]. 
    destruct (Py.replace x [QUOTE] [BACKSLASH; QUOTE]) as [|d y] eqn:Ey.
    + apply andb_false_r.
    + pose proof (escaped_head x) as Hh. rewrite Ey in Hh.
      rewrite Hh. apply andb_false_r.
Qed.

Lemma decode_in_quotes (body : str) :
  decode ([QUOTE] ++ body ++ [QUOTE]) = Py.replace body [BACKSLASH; QUOTE] [QUOTE].
Proof. unfold decode. cbn [app]. rewrite slice_inner. reflexivity. Qed.

(** C5: decoding the encoding of a text [x] gives [x] back, also when [x]
    has quotes in it. [encode] puts [x] in quotes after it has put a
    backslash before each quote of [x]; [decode] takes the outer quotes off
    and replaces each backslash-quote by a quote, and reads no other escape
    sequence. *)
Theorem decode_encode (x : str) :
  encode x = [QUOTE] ++ Py.replace x [QUOTE] [BACKSLASH; QUOTE] ++ [QUOTE] /\
  (forall body, decode ([QUOTE] ++ body ++ [QUOTE])
                = Py.replace body [BACKSLASH; QUOTE] [QUOTE]) /\
  decode (encode x) = x.
Proof.
  split; [reflexivity|]. split; [apply decode_in_quotes|].
  unfold encode. rewrite decode_in_quotes. apply unescape_escape.
Qed.

(** *** The pipeline of one literal *)

Lemma in_quotes_intro (body : str) : in_quotes ([QUOTE] ++ body ++ [QUOTE]).
Proof.
  split.
  - cbn [app Py.startswith]. rewrite startswith_nil. reflexivity.
  - unfold Py.endswith. cbn [app rev]. rewrite rev_app_distr.
    cbn [app rev Py.startswith]. rewrite startswith_nil. reflexivity.
Qed.

Lemma in_quotes_test (literal : str) :
  Py.startswith literal [QUOTE] && Py.endswith literal [QUOTE] = true <-> in_quotes literal.
Proof. apply andb_true_iff. Qed.

(** C3: for a text [s] whose unescaped form has no Cyrillic character, the
    pipeline returns the literal of [s] in quotes as it is, and it does not
    call the translation function: whatever that function is and does to
    the world, the world after the call is the world before it. *)
Theorem literal_without_cyrillic_unchanged
        (World : Type) (translate_func : str -> World -> reply * World)
        (s : str) (w : World) :
  existsb (Range 1024 1279) (Py.replace s [BACKSLASH; QUOTE] [QUOTE]) = false ->
  translate_value_literal translate_func ([QUOTE] ++ s ++ [QUOTE]) w
  = (Ok ([QUOTE] ++ s ++ [QUOTE]), w).
Proof.
  intros H. unfold translate_value_literal.
  destruct (in_quotes_intro s) as [H1 H2]. rewrite H1, H2. cbn [andb negb].
  rewrite decode_in_quotes, needs_translation_existsb, H. reflexivity.
Qed.

Lemma literal_without_cyrillic_unchanged_witness :
  existsb (Range 1024 1279) (Py.replace (lit "Hello %1") [BACKSLASH; QUOTE] [QUOTE]) = false /\
  translate_value_literal counting ([QUOTE] ++ lit "Hello %1" ++ [QUOTE]) 0
  = (Ok ([QUOTE] ++ lit "Hello %1" ++ [QUOTE]), 0).
Proof.
  split; [reflexivity|].
  apply (@literal_without_cyrillic_unchanged nat counting (lit "Hello %1") 0).
  reflexivity.
Defined.

(** C9: the pipeline raises the error of its [assert] exactly when the
    literal does not both start and end with the quote. It raises it before
    anything else is done (the world is the one before the call), and for a
    literal in quotes no outcome of the pipeline is that error. *)
Theorem assertion_error_iff_not_in_quotes
        (World : Type) (translate_func : str -> World -> reply * World)
        (literal : str) (w : World) :
  (translate_value_literal translate_func literal w = (Raise AssertionError, w)
   <-> ~ in_quotes literal) /\
  (fst (translate_value_literal translate_func literal w) = Raise AssertionError
   <-> ~ in_quotes literal).
Proof.
  rewrite <- in_quotes_test. unfold translate_value_literal.
  destruct (Py.startswith literal [QUOTE] && Py.endswith literal [QUOTE]); cbn [negb].
  - destruct (needs_translation (decode literal)); cbn [negb].
    + destruct (mask_fragments (decode literal)) as [masked masks].
      destruct (translate_func masked w) as [[translated| |] w']; cbn [fst];
        split; split; intros H; try discriminate; exfalso; apply H; reflexivity.
    + split; split; intros H; try discriminate; exfalso; apply H; reflexivity.
  - split; split; intros H; try reflexivity; discriminate.
Qed.

(** C4, as stated: for a backend that always raises an [Exception], the
    pipeline of a literal with a Cyrillic letter does not return the
    literal; the error of the backend leaves [translate_value_literal]. *)
Lemma failing_backend_raises :
  needs_translation (decode [QUOTE; 1044%N; QUOTE]) = true /\
  translate_value_literal failing [QUOTE; 1044%N; QUOTE] tt = (Raise BackendError, tt) /\
  fst (translate_value_literal failing [QUOTE; 1044%N; QUOTE] tt)
  <> Ok [QUOTE; 1044%N; QUOTE].
Proof. repeat split. discriminate. Qed.

(** With a backend whose exceptions are all of the class [Exception],
    [_replace_value] returns the text of the match, whatever the match
    is. *)
Lemma replace_value_failing
      (World : Type) (translate_func : str -> World -> reply * World)
      (m : Match) (w : World) :
  (forall t w0, fst (translate_func t w0) = RaisedException) ->
  fst (_replace_value translate_func m w) = Ok (group m 1 ++ group m 2).
Proof.
  intros Hfail. unfold _replace_value, translate_value_literal.
  destruct (Py.startswith (group m 2) [QUOTE] && Py.endswith (group m 2) [QUOTE]);
    cbn [negb]; [|reflexivity].
  destruct (needs_translation (decode (group m 2))); cbn [negb]; [|reflexivity].
  destruct (mask_fragments (decode (group m 2))) as [masked masks].
  specialize (Hfail masked w).
  destruct (translate_func masked w) as [[translated| |] w'];
    first [discriminate|reflexivity].
Qed.


(** C4, amended: with a backend that raises an exception of the class
    [Exception] at every call, the pipeline of a literal in quotes whose
    decoded text has a Cyrillic character raises the error of the backend,
    and [_replace_value], which calls the pipeline for a match, catches it
    and returns the prefix and the literal of the match as they were. *)
Theorem backend_failure_recovered
        (World : Type) (translate_func : str -> World -> reply * World)
        (m : Match) (w : World) :
  (forall t w0, fst (translate_func t w0) = RaisedException) ->
  in_quotes (group m 2) ->
  needs_translation (decode (group m 2)) = true ->
  fst (translate_value_literal translate_func (group m 2) w) = Raise BackendError /\
  fst (_replace_value translate_func m w) = Ok (group m 1 ++ group m 2).
Proof.
  intros Hfail Hq Hn. split; [|apply replace_value_failing, Hfail].
  apply in_quotes_test in Hq.
  unfold translate_value_literal. rewrite Hq, Hn. cbn [negb].
  destruct (mask_fragments (decode (group m 2))) as [masked masks].
  specialize (Hfail masked w).
  destruct (translate_func masked w) as [[translated| |] w'];
    first [discriminate|reflexivity].
Qed.

Lemma backend_failure_recovered_witness :
  let m := {| group0 := lit ": " ++ [QUOTE; 1044%N; QUOTE];
              groups := [(2, [QUOTE; 1044%N; QUOTE]); (1, lit ": ")];
              rest := [] |} in
  match_at KV_VALUE_RE (lit ": " ++ [QUOTE; 1044%N; QUOTE]) = Some m /\
  fst (translate_value_literal failing (group m 2) tt) = Raise BackendError /\
  fst (_replace_value failing m tt) = Ok (lit ": " ++ [QUOTE; 1044%N; QUOTE]).
Proof.
  intros m. split; [reflexivity|].
  apply (@backend_failure_recovered unit failing m tt).
  - reflexivity.
  - split; reflexivity.
  - reflexivity.
Defined.

(** *** The form of the literal returned *)

Lemma escaped_quote_after_backslash (x : str) (j : nat) :
  nth_error (Py.replace x [QUOTE] [BACKSLASH; QUOTE]) j = Some QUOTE ->
  exists k, j = S k /\
            nth_error (Py.replace x [QUOTE] [BACKSLASH; QUOTE]) k = Some BACKSLASH.
Proof.
  rewrite replace_char. revert j.
  induction x as [|c x IH]; intros j H.
  - destruct j; discriminate.
  - cbn [flat_map] in *. destruct (QUOTE =? c)%N eqn:E.
    + destruct j as [|[|j]]; cbn [app nth_error] in *.
      * discriminate.
      * exists 0. auto.
      * destruct (IH _ H) as [k [-> Hk]]. exists (S (S k)). auto.
    + destruct j as [|j]; cbn [app nth_error] in *.
      * injection H as ->. rewrite N.eqb_refl in E. discriminate.
      * destruct (IH _ H) as [k [-> Hk]]. exists (S k). auto.
Qed.

Lemma encode_inner_quotes_escaped (x : str) : inner_quotes_escaped (encode x).
Proof.
  unfold inner_quotes_escaped, encode. intros i Hi Hlen H.
  destruct i as [|j]; [lia|].
  cbn [app length nth_error] in *. rewrite length_app in Hlen. cbn [length] in Hlen.
  replace (S j - 1) with j by lia.
  rewrite nth_error_app1 in H by lia.
  destruct (escaped_quote_after_backslash _ _ H) as [k [-> Hk]].
  cbn [nth_error]. rewrite nth_error_app1 by lia. exact Hk.
Qed.

(** C10, as stated: a literal in quotes with a bare quote inside and no
    Cyrillic character is returned as it is, bare quote and all. *)
Lemma bare_quote_returned :
  let literal := [QUOTE] ++ lit "a" ++ [QUOTE] ++ lit "b" ++ [QUOTE] in
  in_quotes literal /\
  translate_value_literal echo literal tt = (Ok literal, tt) /\
  ~ inner_quotes_escaped literal.
Proof.
  intros literal. split; [split; reflexivity|]. split; [reflexivity|].
  intros H. specialize (H 2). cbn in H.
  assert (E : Some 97%N = Some BACKSLASH) by (apply H; [lia|lia|reflexivity]).
  discriminate.
Qed.

(** C10, amended: for a literal in quotes and a translation function that
    returns a text, the literal the pipeline returns is in quotes, and the
    quotes strictly inside it each come right after a backslash, when the
    decoded literal needs translation, or when the quotes inside the literal
    given were already so. *)
Theorem returned_literal_escaped
        (World : Type) (translate_func : str -> World -> reply * World)
        (literal : str) (w : World) (out : str) (w' : World) :
  in_quotes literal ->
  needs_translation (decode literal) = true \/ inner_quotes_escaped literal ->
  translate_value_literal translate_func literal w = (Ok out, w') ->
  in_quotes out /\ inner_quotes_escaped out.
Proof.
  intros Hq Hcase. pose proof Hq as Hq'. apply in_quotes_test in Hq'.
  unfold translate_value_literal. rewrite Hq'. cbn [negb].
  destruct (needs_translation (decode literal)); cbn [negb].
  - destruct (mask_fragments (decode literal)) as [masked masks].
    destruct (translate_func masked w) as [[translated| |] w1]; try discriminate.
    intros H. injection H as <- <-.
    split; [apply in_quotes_intro|apply encode_inner_quotes_escaped].
  - intros H. injection H as <- <-.
    destruct Hcase as [Hc|Hc]; [discriminate|]. auto.
Qed.

Lemma returned_literal_escaped_witness :
  in_quotes [QUOTE; 1044%N; QUOTE; QUOTE] /\
  needs_translation (decode [QUOTE; 1044%N; QUOTE; QUOTE]) = true /\
  translate_value_literal echo [QUOTE; 1044%N; QUOTE; QUOTE] tt
  = (Ok [QUOTE; 1044%N; BACKSLASH; QUOTE; QUOTE], tt) /\
  in_quotes [QUOTE; 1044%N; BACKSLASH; QUOTE; QUOTE] /\
  inner_quotes_escaped [QUOTE; 1044%N; BACKSLASH; QUOTE; QUOTE].
Proof.
  split; [split; reflexivity|]. split; [reflexivity|]. split; [reflexivity|].
  apply (@returned_literal_escaped unit echo [QUOTE; 1044%N; QUOTE; QUOTE] tt _ tt).
  - split; reflexivity.
  - left. reflexivity.
  - reflexivity.
Defined.

(** *** The text around the literals *)

Lemma replaced_cons (St : Type) (repl : Match -> St -> str * St) gap m ms tail st :
  replaced repl ((gap, m) :: ms) tail st =
  (gap ++ fst (repl m st) ++ fst (replaced repl ms tail (snd (repl m st))),
   snd (replaced repl ms tail (snd (repl m st)))).
Proof.
  cbn [replaced]. destruct (repl m st) as [new st1]. cbn [fst snd].
  destruct (replaced repl ms tail st1) as [out st2]. reflexivity.
Qed.

(** An exception that leaves the pipeline and is not of the class
    [Exception] is one the translation function raised. *)
Lemma pipeline_interrupted
      (World : Type) (translate_func : str -> World -> reply * World)
      (literal : str) (w : World) :
  fst (translate_value_literal translate_func literal w) = Raise BackendInterrupt ->
  exists t w0, fst (translate_func t w0) = RaisedBaseException.
Proof.
  unfold translate_value_literal.
  destruct (Py.startswith literal [QUOTE] && Py.endswith literal [QUOTE]);
    cbn [negb]; [|discriminate].
  destruct (needs_translation (decode literal)); cbn [negb]; [|discriminate].
  destruct (mask_fragments (decode literal)) as [masked masks].
  destruct (translate_func masked w) as [[translated| |] w'] eqn:E; try discriminate.
  intros _. exists masked, w. rewrite E. reflexivity.
Qed.

(** What [_replace_value] returns is the prefix of the match and a literal,
    which is the literal of the match when that needed no translation; what
    it raises is what the translation function raised, and no
    [Exception]. *)
Lemma replace_value_shape
      (World : Type) (translate_func : str -> World -> reply * World)
      (m : Match) (w : World) :
  (forall new, fst (_replace_value translate_func m w) = Ok new ->
     exists out, new = group m 1 ++ out /\
       (needs_translation (decode (group m 2)) = false -> out = group m 2)) /\
  (forall e, fst (_replace_value translate_func m w) = Raise e ->
     e = BackendInterrupt /\
     exists t w0, fst (translate_func t w0) = RaisedBaseException).
Proof.
  unfold _replace_value.
  pose proof (@pipeline_interrupted _ translate_func (group m 2) w) as Hi.
  destruct (translate_value_literal translate_func (group m 2) w) as [[new|e] w'] eqn:E.
  - split; [|discriminate]. cbn [fst]. intros out H. injection H as <-.
    exists new. split; [reflexivity|]. intros Hn.
    unfold translate_value_literal in E. rewrite Hn in E. cbn [negb] in E.
    destruct (Py.startswith (group m 2) [QUOTE] && Py.endswith (group m 2) [QUOTE]);
      cbn [negb] in E; congruence.
  - destruct e; cbn [fst]; (split; [|try discriminate]).
    + intros out H. injection H as <-. exists (group m 2). auto.
    + intros out H. injection H as <-. exists (group m 2). auto.
    + discriminate.
    + intros e H. injection H as <-. split; [reflexivity|]. apply Hi. reflexivity.
Qed.

Lemma scanned_frame
      (World : Type) (translate_func : str -> World -> reply * World)
      (text : str) ms tail :
  scanned KV_VALUE_RE text ms tail ->
  text = with_literals ms (map (fun gm => group (snd gm) 2) ms) tail /\
  forall w,
    (forall out,
       fst (replaced_raising (_replace_value translate_func) ms tail w) = Ok out ->
       exists outs,
         length outs = length ms /\
         out = with_literals ms outs tail /\
         Forall2 (fun gm o => needs_translation (decode (group (snd gm) 2)) = false ->
                              o = group (snd gm) 2) ms outs) /\
    (forall e,
       fst (replaced_raising (_replace_value translate_func) ms tail w) = Raise e ->
       e = BackendInterrupt /\
       exists t w0, fst (translate_func t w0) = RaisedBaseException).
Proof.
  induction 1 as [s H|s gap m ms tail H _ [IHtext IH]].
  - split; [reflexivity|]. intros w. split.
    + cbn [replaced_raising fst]. intros out E. injection E as <-.
      exists []. repeat split. constructor.
    + discriminate.
  - destruct (search_split _ _ H) as [Hs [Hm _]].
    destruct (kv_groups _ Hm) as [Hg _].
    split.
    { cbn [map with_literals snd]. rewrite <- IHtext, Hs, Hg, <- !app_assoc. reflexivity. }
    intros w. cbn [replaced_raising].
    destruct (replace_value_shape translate_func m w) as [Hok Hraise].
    destruct (_replace_value translate_func m w) as [[new|e] w1]; cbn [fst] in *.
    + destruct (Hok _ eq_refl) as [o [-> Hsame]].
      destruct (IH w1) as [IHok IHraise].
      destruct (replaced_raising (_replace_value translate_func) ms tail w1)
        as [[out'|e] w2]; cbn [fst] in *.
      * split; [|discriminate]. intros out E. injection E as <-.
        destruct (IHok _ eq_refl) as [outs [Hlen [-> Hall]]].
        exists (o :: outs). repeat split.
        -- simpl. congruence.
        -- cbn [with_literals]. rewrite <- !app_assoc. reflexivity.
        -- constructor; assumption.
      * split; [discriminate|]. intros e' E. injection E as <-. apply IHraise. reflexivity.
    + split; [discriminate|]. intros e' E. injection E as <-. apply Hraise. reflexivity.
Qed.

(** C1: the text [new_text] returns is the text given except inside the
    literals matched by [KV_VALUE_RE] whose decoded text needed
    translation. With the matches of the scan of the text from the left
    ([scanned]: each one the leftmost in what is left of the text, none
    left in the tail), the text given is the gaps, prefixes (colon and
    blanks) and literals of the matches, and the tail; the text returned is
    the same gaps, prefixes and tail, with a literal in the place of each
    literal, which is the literal of the match when that needed no
    translation. A text is returned whenever the translation function
    raises no exception that is not of the class [Exception]; such an
    exception of the function is all that [new_text] can raise. *)
Theorem new_text_frame
        (World : Type) (translate_func : str -> World -> reply * World)
        (text : str) (w : World) :
  let ms := fst (finditer KV_VALUE_RE text) in
  let tail := snd (finditer KV_VALUE_RE text) in
  scanned KV_VALUE_RE text ms tail /\
  text = with_literals ms (map (fun gm => group (snd gm) 2) ms) tail /\
  (forall out,
     fst (new_text translate_func text w) = Ok out ->
     exists outs,
       length outs = length ms /\
       out = with_literals ms outs tail /\
       Forall2 (fun gm o => needs_translation (decode (group (snd gm) 2)) = false ->
                            o = group (snd gm) 2) ms outs) /\
  ((forall t w0, fst (translate_func t w0) <> RaisedBaseException) ->
   exists out, fst (new_text translate_func text w) = Ok out) /\
  (forall e,
     fst (new_text translate_func text w) = Raise e ->
     e = BackendInterrupt /\
     exists t w0, fst (translate_func t w0) = RaisedBaseException).
Proof.
  intros ms tail.
  assert (Hs : scanned KV_VALUE_RE text ms tail)
    by (apply finditer_scanned; reflexivity).
  split; [exact Hs|].
  unfold new_text. rewrite sub_raising_replaced.
  destruct (scanned_frame translate_func Hs) as [Htext Hrun].
  split; [exact Htext|]. destruct (Hrun w) as [Hok Hraise].
  split; [exact Hok|]. split; [|exact Hraise].
  intros Hnever.
  destruct (fst (replaced_raising (_replace_value translate_func) ms tail w))
    as [out|e] eqn:E; [eauto|].
  destruct (Hraise e eq_refl) as [_ [t [w0 H]]]. destruct (Hnever t w0 H).
Qed.

(** *** Masking and unmasking *)

Lemma replaced_repl (ms : list (str * Match)) (tail : str) (masks : list str) :
  replaced _repl ms tail masks
  = (masked_from (length masks) ms tail, masks ++ fragments ms).
Proof.
  revert masks. induction ms as [|[gap m] ms IH]; intros masks.
  - simpl. rewrite app_nil_r. reflexivity.
  - rewrite replaced_cons. unfold _repl. cbn [fst snd].
    rewrite IH. rewrite length_app. cbn [length fragments map masked_from fst snd].
    replace (length masks + 1 - 1) with (length masks) by lia.
    replace (length masks + 1) with (S (length masks)) by lia.
    rewrite <- app_assoc. reflexivity.
Qed.

Lemma mask_fragments_scan (s : str) :
  mask_fragments s
  = (masked_from 0 (fst (finditer PLACEHOLDER_RE s)) (snd (finditer PLACEHOLDER_RE s)),
     fragments (fst (finditer PLACEHOLDER_RE s))).
Proof. unfold mask_fragments. rewrite sub_replaced. apply replaced_repl. Qed.

Lemma enumerate_from_app (A : Type) (i : nat) (l l' : list A) :
  Py.enumerate_from i (l ++ l') = Py.enumerate_from i l ++ Py.enumerate_from (i + length l) l'.
Proof.
  revert i. induction l as [|x l IH]; intros i; simpl.
  - rewrite Nat.add_0_r. reflexivity.
  - rewrite IH. replace (i + S (length l)) with (S i + length l) by lia. reflexivity.
Qed.

Lemma unmask_fragments_snoc (t : str) (masks : list str) (val : str) :
  unmask_fragments t (masks ++ [val])
  = Py.replace (unmask_fragments t masks) (mask_token (length masks)) val.
Proof.
  unfold unmask_fragments, Py.enumerate.
  rewrite enumerate_from_app, fold_left_app. reflexivity.
Qed.

(** C8: [mask_fragments] scans the text for the protected patterns from
    the left ([scanned]: each match is the leftmost in what is left of the
    text after the match before, so the matches do not overlap, and none is
    left in the tail); the text is the gaps and matches of the scan; the
    masked text has the token [__MASK<i>__] in the place of the [i]-th match,
    counted from 0; and the list returned has the text of the [i]-th match at
    index [i]. [unmask_fragments] goes through the list in the order of the
    indexes and replaces the token of each index by the text at that index. *)
Theorem mask_fragments_tokens (s : str) :
  let ms := fst (finditer PLACEHOLDER_RE s) in
  let tail := snd (finditer PLACEHOLDER_RE s) in
  scanned PLACEHOLDER_RE s ms tail /\
  s = original ms tail /\
  mask_fragments s = (masked_from 0 ms tail, fragments ms) /\
  (forall i gap m, nth_error ms i = Some (gap, m) ->
                   nth_error (snd (mask_fragments s)) i = Some (group0 m)) /\
  (forall t, unmask_fragments t [] = t) /\
  (forall t masks val,
      unmask_fragments t (masks ++ [val])
      = Py.replace (unmask_fragments t masks) (mask_token (length masks)) val).
Proof.
  intros ms tail.
  assert (Hs : scanned PLACEHOLDER_RE s ms tail)
    by (apply finditer_scanned; reflexivity).
  split; [exact Hs|]. split; [apply (scanned_original Hs)|].
  split; [apply mask_fragments_scan|].
  split; [|split; [reflexivity|apply unmask_fragments_snoc]].
  intros i gap m H. rewrite mask_fragments_scan. cbn [snd]. fold ms.
  unfold fragments. rewrite nth_error_map, H. reflexivity.
Qed.

(** *** Tokens in a text *)

Lemma mask_token_unfold (i : nat) :
  mask_token i = [95; 95; 77; 65; 83; 75]%N ++ Py.str_of_nat i ++ [95; 95]%N.
Proof. reflexivity. Qed.

Lemma token_or_end_token (k : nat) (t : str) : token_or_end (mask_token k ++ t).
Proof. right. rewrite mask_token_unfold. eexists. reflexivity. Qed.

Lemma mask_free_tail (a : char) (x : str) : mask_free (a :: x) -> mask_free x.
Proof. apply (@contains_app_r [a] x). Qed.

(** No token starts inside a piece without the word MASK that is followed
    by a token or by the end of the text. *)
Lemma no_token_in_piece (x y : str) (i : nat) :
  x <> [] -> mask_free x -> token_or_end y ->
  Py.startswith (x ++ y) (mask_token i) = false.
Proof.
  intros Hx Hfree Hy.
  destruct (Py.startswith (x ++ y) (mask_token i)) eqn:E; [exfalso|reflexivity].
  apply startswith_inv in E. destruct E as [u E].
  rewrite mask_token_unfold in E. cbn [app] in E.
  unfold mask_free in Hfree.
  destruct x as [|a1 [|a2 [|a3 [|a4 [|a5 [|a6 x]]]]]]; [congruence|..];
    cbn [app] in E.
  1-5: destruct Hy as [->|[t ->]]; discriminate.
  injection E as -> -> -> -> -> -> _.
  cbn in Hfree. rewrite startswith_nil in Hfree. discriminate.
Qed.

Lemma mask_token_not_nil (i : nat) : mask_token i <> [].
Proof. rewrite mask_token_unfold. discriminate. Qed.

(** Replacing a token leaves such a piece as it is. *)
Lemma replace_over_piece (x y : str) (i : nat) (val : str) :
  mask_free x -> token_or_end y ->
  Py.replace (x ++ y) (mask_token i) val = x ++ Py.replace y (mask_token i) val.
Proof.
  intros Hfree Hy. induction x as [|a x IH]; [reflexivity|].
  cbn [app]. rewrite replace_miss.
  - rewrite IH; [reflexivity|]. apply (mask_free_tail Hfree).
  - apply (@no_token_in_piece (a :: x) y i); [discriminate|assumption..].
Qed.

Lemma replace_piece (x : str) (i : nat) (val : str) :
  mask_free x -> Py.replace x (mask_token i) val = x.
Proof.
  intros Hfree. rewrite <- (app_nil_r x) at 1.
  rewrite replace_over_piece; [|assumption|left; reflexivity].
  rewrite replace_nil by apply mask_token_not_nil. apply app_nil_r.
Qed.

(** A text that does not start with M, before a text without MASK. *)
Lemma mask_free_after (u x : str) :
  forallb (fun c => negb (c =? 77)%N) u = true -> mask_free x -> mask_free (u ++ x).
Proof.
  intros Hu Hx. induction u as [|c u IH]; [exact Hx|].
  cbn [forallb] in Hu. apply andb_true_iff in Hu. destruct Hu as [Hc Hu].
  unfold mask_free in *. cbn [app]. rewrite contains_cons, (IH Hu), orb_false_r.
  cbn [lit Py.startswith]. change (N_of_ascii "M") with 77%N.
  rewrite N.eqb_sym. apply negb_true_iff in Hc. rewrite Hc. reflexivity.
Qed.

Lemma digits_no_M (n : nat) :
  forallb (fun c => negb (c =? 77)%N) (Py.str_of_nat n) = true.
Proof.
  apply forallb_forall. intros c Hc.
  pose proof (digits_ascii (Nat.to_uint n)) as Hd.
  rewrite forallb_forall in Hd. specialize (Hd c Hc).
  unfold Py.is_ascii_digit in Hd. apply andb_true_iff in Hd.
  destruct Hd as [H1 H2]. apply N.leb_le in H1, H2.
  apply negb_true_iff, N.eqb_neq. lia.
Qed.

(** Two tokens, one at the start of the other followed by a text, have the
    same index. *)
Lemma token_prefix_eq (i k : nat) (t : str) :
  Py.startswith (mask_token k ++ t) (mask_token i) = true -> i = k.
Proof.
  rewrite !mask_token_unfold. cbn [app Py.startswith]. rewrite !N.eqb_refl. cbn [andb].
  rewrite <- !app_assoc. cbn [app]. intros H.
  apply str_of_nat_inj.
  apply (@digit_run_eq (Py.str_of_nat i) (Py.str_of_nat k) 95%N [95%N] (95%N :: t)).
  - apply digits_ascii.
  - apply digits_ascii.
  - reflexivity.
  - exact H.
Qed.

(** Replacing the token of one index goes over the token of another one. *)
Lemma replace_over_token (i k : nat) (x y val : str) :
  i <> k -> mask_free x -> token_or_end y ->
  Py.replace (mask_token k ++ x ++ y) (mask_token i) val
  = mask_token k ++ x ++ Py.replace y (mask_token i) val.
Proof.
  intros Hik Hx Hy.
  assert (H0 : Py.startswith (mask_token k ++ x ++ y) (mask_token i) = false).
  { destruct (Py.startswith (mask_token k ++ x ++ y) (mask_token i)) eqn:E; [|reflexivity].
    apply token_prefix_eq in E. congruence. }
  rewrite (mask_token_unfold k) in *. cbn [app] in *.
  rewrite replace_miss by exact H0.
  rewrite replace_miss by (rewrite mask_token_unfold; reflexivity).
  rewrite replace_miss by (rewrite mask_token_unfold; reflexivity).
  do 3 f_equal.
  set (piece := [65; 83; 75]%N ++ (Py.str_of_nat k ++ [95; 95]%N) ++ x).
  assert (E : forall z, (65 :: 83 :: 75 :: (Py.str_of_nat k ++ [95; 95]) ++ x ++ z)%N
                        = piece ++ z).
  { intros z. unfold piece. rewrite <- !app_assoc. reflexivity. }
  rewrite !E. apply replace_over_piece; [|exact Hy].
  unfold piece. apply mask_free_after; [reflexivity|].
  rewrite <- app_assoc. apply mask_free_after; [apply digits_no_M|].
  apply mask_free_after; [reflexivity|exact Hx].
Qed.

Lemma pieces_free_original (p : str) ms tail :
  mask_free (p ++ original ms tail) -> pieces_free ms tail.
Proof.
  revert p. induction ms as [|[gap m] ms IH]; intros p H.
  - split; [constructor|]. apply (contains_app_r _ _ _ H).
  - cbn [original] in H.
    destruct (IH (p ++ gap ++ group0 m)) as [H1 H2];
      [rewrite <- !app_assoc; exact H|].
    split; [constructor|]; auto. cbn [fst].
    apply contains_app_r in H. apply (contains_app_l _ _ _ H).
Qed.

(** Replacing a token leaves a masked text with greater indexes as it is. *)
Lemma replace_from_token (i : nat) (val : str) ms :
  forall k tail, i < k -> pieces_free ms tail ->
    Py.replace (mask_token k ++ masked_from (S k) ms tail) (mask_token i) val
    = mask_token k ++ masked_from (S k) ms tail.
Proof.
  induction ms as [|[gap m] ms IH]; intros k tail Hik [Hgaps Htail]; cbn [masked_from].
  - rewrite <- (app_nil_r tail) at 1.
    rewrite replace_over_token; [|lia|assumption|left; reflexivity].
    rewrite replace_nil by apply mask_token_not_nil. rewrite app_nil_r. reflexivity.
  - inversion Hgaps as [|? ? Hgap Hgaps']; subst. cbn [fst] in Hgap.
    rewrite replace_over_token; [|lia|assumption|apply token_or_end_token].
    rewrite IH; [reflexivity|lia|split; assumption].
Qed.

Lemma replace_masked_from (i : nat) (val : str) ms k tail :
  i < k -> pieces_free ms tail ->
  Py.replace (masked_from k ms tail) (mask_token i) val = masked_from k ms tail.
Proof.
  intros Hik Hfree. destruct ms as [|[gap m] ms]; cbn [masked_from].
  - apply replace_piece, Hfree.
  - destruct Hfree as [Hgaps Htail].
    inversion Hgaps as [|? ? Hgap Hgaps']; subst. cbn [fst] in Hgap.
    rewrite replace_over_piece; [|assumption|apply token_or_end_token].
    rewrite replace_from_token; [reflexivity|assumption|split; assumption].
Qed.

(** Unmasking a masked text whose pieces have no MASK in them. *)
Lemma fold_unmask_masked ms :
  forall i p tail,
    mask_free (p ++ original ms tail) ->
    fold_left (fun s '(i, val) => Py.replace s (mask_token i) val)
              (Py.enumerate_from i (fragments ms)) (p ++ masked_from i ms tail)
    = p ++ original ms tail.
Proof.
  induction ms as [|[gap m] ms IH]; intros i p tail Hfree; [reflexivity|].
  cbn [fragments map Py.enumerate_from fold_left masked_from original snd].
  pose proof (pieces_free_original _ _ _ Hfree) as [Hgaps Htail].
  inversion Hgaps as [|? ? Hgap Hgaps']; subst. cbn [fst] in Hgap.
  cbn [original] in Hfree.
  rewrite (app_assoc p gap), replace_over_piece;
    [| rewrite app_assoc in Hfree; apply (contains_app_l _ _ _ Hfree)
     | apply token_or_end_token].
  rewrite replace_hit_app by apply mask_token_not_nil.
  rewrite replace_masked_from; [|lia|split; assumption].
  specialize (IH (S i) ((p ++ gap) ++ group0 m) tail).
  fold (fragments ms).
  rewrite <- !app_assoc in *. apply IH. exact Hfree.
Qed.

(** C2, as stated: a text with the token of index 0 in it does not come
    back from masking and unmasking. *)
Lemma token_collision_breaks_roundtrip :
  mask_fragments (lit "__MASK0__ %1") = (lit "__MASK0__ __MASK0__", [lit "%1"]) /\
  unmask_fragments (lit "__MASK0__ __MASK0__") [lit "%1"] = lit "%1 %1" /\
  unmask_fragments (fst (mask_fragments (lit "__MASK0__ %1")))
                   (snd (mask_fragments (lit "__MASK0__ %1")))
  <> lit "__MASK0__ %1".
Proof. repeat split. discriminate. Qed.

(** C2, amended: for every text [s] without the word MASK in it,
    [unmask_fragments] of the masked text and the list of fragments that
    [mask_fragments s] returns is [s]. *)
Theorem unmask_mask_roundtrip (s : str) :
  mask_free s ->
  unmask_fragments (fst (mask_fragments s)) (snd (mask_fragments s)) = s.
Proof.
  intros Hfree. rewrite mask_fragments_scan. cbn [fst snd].
  pose proof (@finditer_scanned PLACEHOLDER_RE s nullable_PLACEHOLDER_RE) as Hs.
  apply scanned_original in Hs.
  set (ms := fst (finditer PLACEHOLDER_RE s)) in *.
  set (tail := snd (finditer PLACEHOLDER_RE s)) in *.
  assert (Hfree' : mask_free ([] ++ original ms tail))
    by (cbn [app]; rewrite <- Hs; exact Hfree).
  pose proof (fold_unmask_masked ms 0 [] tail Hfree') as H.
  cbn [app] in H. rewrite <- Hs in H. exact H.
Qed.

Lemma unmask_mask_roundtrip_witness :
  mask_free hello_ru /\
  unmask_fragments (fst (mask_fragments hello_ru)) (snd (mask_fragments hello_ru)) = hello_ru.
Proof.
  split; [reflexivity|]. apply (@unmask_mask_roundtrip hello_ru). reflexivity.
Defined.

(** An example for C2: a text without any token in it (and without
    [__MASK]) that does not come back either; the end of the token of index
    1 and the text after it read as the token of index 0. *)
Example collision_across_tokens :
  Py.contains (lit "%1%2MASK0__") (lit "__MASK") = false /\
  mask_fragments (lit "%1%2MASK0__") = (lit "__MASK0____MASK1__MASK0__", [lit "%1"; lit "%2"]) /\
  unmask_fragments (lit "__MASK0____MASK1__MASK0__") [lit "%1"; lit "%2"] = lit "%1__MASK1%1".
Proof. repeat split. Qed.

(** *** Placeholders through the pipeline *)

(** Two texts without MASK, the second one starting apart, make a text
    without MASK. *)
Lemma mask_free_app (a v : str) :
  mask_free a -> mask_free v -> starts_apart v -> mask_free (a ++ v).
Proof.
  intros Ha Hv Hh. induction a as [|c a IH]; [exact Hv|].
  pose proof (mask_free_tail Ha) as Ha'.
  unfold mask_free in *. cbn [app]. rewrite contains_cons, (IH Ha'), orb_false_r.
  rewrite contains_cons in Ha. apply orb_false_iff in Ha. destruct Ha as [Hs _].
  destruct (Py.startswith (c :: a ++ v) (lit "MASK")) eqn:E; [exfalso|reflexivity].
  apply startswith_inv in E. destruct E as [u E]. cbn [lit app] in E.
  change (N_of_ascii "M") with 77%N in E. change (N_of_ascii "A") with 65%N in E.
  change (N_of_ascii "S") with 83%N in E. change (N_of_ascii "K") with 75%N in E.
  destruct a as [|a1 [|a2 [|a3 a]]]; cbn [app] in E.
  1-3: destruct v as [|h v]; [discriminate|]; cbn in Hh; injection E; intros; subst; tauto.
  injection E as -> -> -> -> _. cbn in Hs. rewrite startswith_nil in Hs. discriminate.
Qed.

Lemma escaped_app (x y : str) : escaped (x ++ y) = escaped x ++ escaped y.
Proof. apply replace_char_app. Qed.

(** C6, as stated: with a backend that returns the empty text, the literal
    returned for the Russian text with [%1] and [{count}] is the two quotes:
    the placeholders are lost. *)
Lemma placeholders_lost :
  snd (mask_fragments hello_ru) = [lit "%1"; lit "{count}"] /\
  translate_value_literal silent ([QUOTE] ++ hello_ru ++ [QUOTE]) tt = (Ok [QUOTE; QUOTE], tt) /\
  Py.contains [QUOTE; QUOTE] (lit "%1") = false /\
  Py.contains [QUOTE; QUOTE] (lit "{count}") = false.
Proof. repeat split. Qed.

(** C6, amended: when the backend returns, for the masked Russian text, a
    text with the two tokens in their order, [a ++ __MASK0__ ++ b ++
    __MASK1__ ++ c] where [a], [b] and [c] have no MASK in them, the
    literal returned has [%1] and [{count}] in the places of the tokens, in
    that order, around the escaped [a], [b] and [c], whatever these are. *)
Theorem placeholders_kept
        (World : Type) (translate_func : str -> World -> reply * World)
        (w w' : World) (a b c : str) :
  translate_func hello_ru_masked w
  = (Returned (a ++ mask_token 0 ++ b ++ mask_token 1 ++ c), w') ->
  mask_free a -> mask_free b -> mask_free c ->
  translate_value_literal translate_func ([QUOTE] ++ hello_ru ++ [QUOTE]) w
  = (Ok ([QUOTE] ++ escaped a ++ lit "%1" ++ escaped b ++ lit "{count}" ++ escaped c
              ++ [QUOTE]), w').
Proof.
  intros Htr Ha Hb Hc. unfold translate_value_literal.
  destruct (in_quotes_intro hello_ru) as [H1 H2]. rewrite H1, H2. cbn [andb negb].
  rewrite decode_in_quotes.
  replace (Py.replace hello_ru [BACKSLASH; QUOTE] [QUOTE]) with hello_ru
    by (vm_compute; reflexivity).
  replace (needs_translation hello_ru) with true by (vm_compute; reflexivity).
  replace (mask_fragments hello_ru) with (hello_ru_masked, [lit "%1"; lit "{count}"])
    by (vm_compute; reflexivity).
  cbn [negb]. rewrite Htr. do 2 f_equal.
  assert (Hu : unmask_fragments (a ++ mask_token 0 ++ b ++ mask_token 1 ++ c)
                                [lit "%1"; lit "{count}"]
               = a ++ lit "%1" ++ b ++ lit "{count}" ++ c).
  { unfold unmask_fragments, Py.enumerate. cbn [Py.enumerate_from fold_left].
    rewrite (@replace_over_piece a (mask_token 0 ++ b ++ mask_token 1 ++ c) 0 (lit "%1"));
      [|assumption|apply token_or_end_token].
    rewrite replace_hit_app by apply mask_token_not_nil.
    rewrite (@replace_over_piece b (mask_token 1 ++ c) 0 (lit "%1"));
      [|assumption|apply token_or_end_token].
    assert (E1 : Py.replace (mask_token 1 ++ c) (mask_token 0) (lit "%1")
                 = mask_token 1 ++ c).
    { rewrite <- (app_nil_r c) at 1.
      rewrite replace_over_token; [|lia|assumption|left; reflexivity].
      rewrite replace_nil by apply mask_token_not_nil. rewrite app_nil_r. reflexivity. }
    rewrite E1.
    replace (a ++ lit "%1" ++ b ++ mask_token 1 ++ c)
      with ((a ++ lit "%1" ++ b) ++ mask_token 1 ++ c)
      by (rewrite <- !app_assoc; reflexivity).
    rewrite replace_over_piece; [| |apply token_or_end_token].
    - rewrite replace_hit_app by apply mask_token_not_nil.
      rewrite replace_piece by assumption.
      rewrite <- !app_assoc. reflexivity.
    - apply mask_free_app; [assumption| |cbn; repeat split; discriminate].
      apply mask_free_after; [reflexivity|assumption]. }
  rewrite Hu. unfold encode. fold (escaped (a ++ lit "%1" ++ b ++ lit "{count}" ++ c)).
  rewrite !escaped_app.
  change (escaped (lit "%1")) with (lit "%1").
  change (escaped (lit "{count}")) with (lit "{count}").
  rewrite <- !app_assoc. reflexivity.
Qed.

Lemma placeholders_kept_witness :
  let a := [1055; 1088; 1080; 1074; 1077; 1090; 32]%N in
  let b := lit ", " ++ [1091; 32; 1074; 1072; 1089; 32]%N in
  let c := lit " " ++ [1101; 1083; 1077; 1084; 1077; 1085; 1090; 1086; 1074]%N in
  echo hello_ru_masked tt = (Returned (a ++ mask_token 0 ++ b ++ mask_token 1 ++ c), tt) /\
  mask_free a /\ mask_free b /\ mask_free c /\
  translate_value_literal echo ([QUOTE] ++ hello_ru ++ [QUOTE]) tt
  = (Ok ([QUOTE] ++ escaped a ++ lit "%1" ++ escaped b ++ lit "{count}" ++ escaped c
              ++ [QUOTE]), tt).
Proof.
  intros a b c. do 4 (split; [reflexivity|]).
  apply (@placeholders_kept unit echo tt tt a b c); reflexivity.
Defined.

(** *** The literals the scan yields *)

Lemma star_text_quotes (t : str) :
  star_text string_unit t ->
  forall j, nth_error t j = Some QUOTE ->
            exists k, j = S k /\ nth_error t k = Some BACKSLASH.
Proof.
  induction 1 as [|u v Hu _ IH]; intros j Hj.
  - destruct j; discriminate.
  - destruct Hu as [[x ->]|[x [-> Hx]]].
    + destruct j as [|[|j]]; cbn [app nth_error] in *.
      * discriminate.
      * exists 0. auto.
      * destruct (IH _ Hj) as [k [-> Hk]]. exists (S (S k)). auto.
    + destruct j as [|j]; cbn [app nth_error] in *.
      * congruence.
      * destruct (IH _ Hj) as [k [-> Hk]]. exists (S k). auto.
Qed.

Lemma quoted_body_escaped (t : str) :
  (forall j, nth_error t j = Some QUOTE ->
             exists k, j = S k /\ nth_error t k = Some BACKSLASH) ->
  inner_quotes_escaped ([QUOTE] ++ t ++ [QUOTE]).
Proof.
  intros Ht i Hi Hlen H.
  destruct i as [|j]; [lia|].
  cbn [app length nth_error] in *. rewrite length_app in Hlen. cbn [length] in Hlen.
  replace (S j - 1) with j by lia.
  rewrite nth_error_app1 in H by lia.
  destruct (Ht _ H) as [k [-> Hk]].
  cbn [nth_error]. rewrite nth_error_app1 by lia. exact Hk.
Qed.

(** The literal of every match of [KV_VALUE_RE] is in quotes, with the
    quotes inside it escaped: the [assert] of the pipeline holds for every
    literal that [_replace_value] passes to it. *)
Lemma kv_literal_escaped (s : str) (m : Match) :
  match_at KV_VALUE_RE s = Some m ->
  in_quotes (group m 2) /\ inner_quotes_escaped (group m 2).
Proof.
  intros H. destruct (kv_literal _ H) as [t [-> Ht]].
  split; [apply in_quotes_intro|].
  apply quoted_body_escaped, star_text_quotes, Ht.
Qed.

(** A literal that needs no translation: [_replace_value] returns the text
    of the groups and does not call the translation function. *)
Lemma replace_value_skip
      (World : Type) (translate_func : str -> World -> reply * World)
      (m : Match) (w : World) :
  needs_translation (decode (group m 2)) = false ->
  _replace_value translate_func m w = (Ok (group m 1 ++ group m 2), w).
Proof.
  intros Hn. unfold _replace_value, translate_value_literal. rewrite Hn.
  destruct (Py.startswith (group m 2) [QUOTE] && Py.endswith (group m 2) [QUOTE]);
    reflexivity.
Qed.

(** When no literal of the scan needs translation, [new_text] returns the
    text as it is. *)
Lemma new_text_unchanged
      (World : Type) (translate_func : str -> World -> reply * World)
      (text : str) (w : World) :
  Forall (fun gm => needs_translation (decode (group (snd gm) 2)) = false)
         (fst (finditer KV_VALUE_RE text)) ->
  fst (new_text translate_func text w) = Ok text.
Proof.
  intros Hall.
  pose proof (@finditer_scanned KV_VALUE_RE text nullable_KV_VALUE_RE) as Hs.
  unfold new_text. rewrite sub_raising_replaced.
  revert Hall w. induction Hs as [s H|s gap m ms tail H _ IH]; intros Hall w.
  - reflexivity.
  - inversion Hall as [|? ? Hgm Hall']; subst. cbn [snd] in Hgm.
    destruct (search_split _ _ H) as [E [Hm _]]. destruct (kv_groups _ Hm) as [Hg _].
    cbn [replaced_raising]. rewrite (replace_value_skip translate_func _ w Hgm).
    specialize (IH Hall' w).
    destruct (replaced_raising (_replace_value translate_func) ms tail w) as [[out|e] w2];
      cbn [fst] in *; [|discriminate].
    injection IH as ->. rewrite <- Hg. f_equal. symmetry. exact E.
Qed.

(** An example for C6: a text of the backend with the two tokens in their
    order, where the text between them reads as a token with the start of
    the second one. [{count}] does not come back. *)
Example overlap_loses_placeholder :
  let translated := mask_token 0 ++ lit "__MASK0" ++ mask_token 1 in
  unmask_fragments translated [lit "%1"; lit "{count}"] = lit "%1%1MASK1__".
Proof. reflexivity. Qed.

(** *** The example of the specification *)

(** The line [title: ] and, in quotes, the Ukrainian for "Good day, %1!",
    with a backend that answers "Good day, __MASK0__!" for the masked
    text: the literal is translated, the placeholder is back, and the rest
    of the line is as it was. *)
Example good_day :
  let dobryi_den := [1044; 1086; 1073; 1088; 1080; 1081; 32; 1076; 1077; 1085; 1100; 44; 32]%N in
  let stub (t : str) (w : unit) :=
    if list_eq_dec N.eq_dec t (dobryi_den ++ mask_token 0 ++ lit "!")
    then (Returned (lit "Good day, " ++ mask_token 0 ++ lit "!"), w)
    else (Returned t, w) in
  new_text stub (lit "title: " ++ [QUOTE] ++ dobryi_den ++ lit "%1!" ++ [QUOTE]) tt
  = (Ok (lit "title: " ++ [QUOTE] ++ lit "Good day, %1!" ++ [QUOTE]), tt).
Proof. vm_compute. reflexivity. Qed.

(** *** Sample runs *)

(** Every class of protected fragment, in one text. *)
Example mask_all_classes :
  mask_fragments (lit "Hello %1, you have {count} <b>items</b> &amp; [one|many] 100%")
  = (lit "Hello __MASK0__, you have __MASK1__ __MASK2__items__MASK3__ __MASK4__ __MASK5__ 100%",
     [lit "%1"; lit "{count}"; lit "<b>"; lit "</b>"; lit "&amp;"; lit "[one|many]"]).
Proof. vm_compute. reflexivity. Qed.

(** A tag ends at the first [>], and a brace group at the first closing
    brace. *)
Example mask_shortest :
  mask_fragments (lit "<a href=x>>y</a>") = (lit "__MASK0__>y__MASK1__", [lit "<a href=x>"; lit "</a>"]) /\
  mask_fragments (lit "%12a %x {a{b}c}") = (lit "__MASK0__a %x __MASK1__c}", [lit "%12"; lit "{a{b}"]).
Proof. split; vm_compute; reflexivity. Qed.

(** The scan of a text for values: the prefix and the literal of each
    match, with an escaped quote inside the second literal; the literal
    that is left open is no match. *)
Example scan_values :
  let text := lit "a: " ++ [QUOTE] ++ lit "x" ++ [QUOTE] ++ lit ", b :" ++ [9%N; QUOTE]
              ++ lit "y" ++ [BACKSLASH; QUOTE] ++ lit "z" ++ [QUOTE] ++ lit " c:" ++ [QUOTE]
              ++ lit "open" in
  map (fun gm => (fst gm, group (snd gm) 1, group (snd gm) 2)) (fst (finditer KV_VALUE_RE text))
  = [ (lit "a", lit ": ", [QUOTE] ++ lit "x" ++ [QUOTE]);
      (lit ", b ", [58%N; 9%N], [QUOTE] ++ lit "y" ++ [BACKSLASH; QUOTE] ++ lit "z" ++ [QUOTE]) ] /\
  snd (finditer KV_VALUE_RE text) = lit " c:" ++ [QUOTE] ++ lit "open".
Proof. split; vm_compute; reflexivity. Qed.

(** *** The whole text *)

(** When [repl] returns the text of every match of a text that satisfies
    [P], and [P] goes over to the parts of a text, the text is returned as
    it is. *)
Lemma replaced_same_on (St : Type) (P : str -> Prop) (r : regex)
      (repl : Match -> St -> outcome str * St) :
  (forall a b, P (a ++ b) -> P a /\ P b) ->
  (forall s m st, P s -> match_at r s = Some m -> fst (repl m st) = Ok (group0 m)) ->
  forall s ms tail, scanned r s ms tail -> P s ->
  forall st, fst (replaced_raising repl ms tail st) = Ok s.
Proof.
  intros Hparts Hrepl s ms tail.
  induction 1 as [s H|s gap m ms tail H _ IH]; intros Hs st; [reflexivity|].
  destruct (search_split _ _ H) as [E [Hm _]].
  rewrite E in Hs. apply Hparts in Hs. destruct Hs as [_ Hs].
  cbn [replaced_raising]. specialize (Hrepl _ _ st Hs Hm).
  destruct (repl m st) as [[new|e] st1]; cbn [fst] in Hrepl; [|discriminate].
  injection Hrepl as ->.
  apply Hparts in Hs. destruct Hs as [_ Hs]. specialize (IH Hs st1).
  destruct (replaced_raising repl ms tail st1) as [[out|e] st2];
    cbn [fst] in *; [|discriminate].
  injection IH as ->. f_equal. symmetry. exact E.
Qed.

(** With a backend whose exceptions are all of the class [Exception],
    [new_text] returns the text as it is: no error of the backend reaches
    the text. *)
Lemma new_text_failing_backend
      (World : Type) (translate_func : str -> World -> reply * World)
      (text : str) (w : World) :
  (forall t w0, fst (translate_func t w0) = RaisedException) ->
  fst (new_text translate_func text w) = Ok text.
Proof.
  intros Hfail. unfold new_text. rewrite sub_raising_replaced.
  apply (@replaced_same_on World (fun _ => True) KV_VALUE_RE); auto.
  - intros s m st _ Hm. destruct (kv_groups _ Hm) as [-> _].
    apply replace_value_failing, Hfail.
  - apply finditer_scanned. reflexivity.
Qed.

(** What [_replace_value] puts in the place of a match of [KV_VALUE_RE] is
    the prefix of the match and a literal in quotes with the quotes inside
    it escaped: the text [new_text] returns has such a literal wherever the
    text given has one. *)
Lemma replace_value_literal_escaped
      (World : Type) (translate_func : str -> World -> reply * World)
      (s : str) (m : Match) (w : World) :
  match_at KV_VALUE_RE s = Some m ->
  forall new,
    fst (_replace_value translate_func m w) = Ok new ->
    exists out, new = group m 1 ++ out /\ in_quotes out /\ inner_quotes_escaped out.
Proof.
  intros Hm new. destruct (kv_literal_escaped _ Hm) as [Hq He].
  unfold _replace_value, translate_value_literal.
  apply in_quotes_test in Hq. rewrite Hq. apply in_quotes_test in Hq. cbn [negb].
  destruct (needs_translation (decode (group m 2))); cbn [negb].
  - destruct (mask_fragments (decode (group m 2))) as [masked masks].
    destruct (translate_func masked w) as [[translated| |] w']; cbn [fst];
      intros E; try discriminate; injection E as <-.
    + eexists. split; [reflexivity|].
      split; [apply in_quotes_intro|apply encode_inner_quotes_escaped].
    + exists (group m 2). auto.
  - cbn [fst]. intros E. injection E as <-. exists (group m 2). auto.
Qed.

(** * More of the program *)

(** ** The codec on the literals of the scan *)

Lemma escaped_cons (c : char) (x : str) :
  escaped (c :: x) = (if (QUOTE =? c)%N then [BACKSLASH; QUOTE] else [c]) ++ escaped x.
Proof. unfold escaped. rewrite !replace_char. reflexivity. Qed.

(** The body of a string literal does not start with a quote. *)
Lemma star_text_head (t : str) :
  star_text string_unit t -> Py.startswith t [QUOTE] = false.
Proof.
  induction 1 as [|u v Hu _ IH]; [reflexivity|].
  destruct Hu as [[x ->]|[x [-> Hx]]]; cbn [app Py.startswith].
  - reflexivity.
  - apply N.eqb_neq in Hx. rewrite N.eqb_sym, Hx. reflexivity.
Qed.

(** Unescaping and escaping again gives the body of a string literal
    back. *)
Lemma escape_unescape (t : str) :
  star_text string_unit t ->
  escaped (Py.replace t [BACKSLASH; QUOTE] [QUOTE]) = t.
Proof.
  induction 1 as [|u v Hu Hv IH]; [reflexivity|].
  pose proof (star_text_head Hv) as Hhead.
  assert (Hmiss : forall x, Py.startswith (x :: v) [BACKSLASH; QUOTE] = false).
  { intros x. cbn [Py.startswith]. rewrite Hhead. apply andb_false_r. }
  destruct Hu as [[x ->]|[x [-> Hx]]]; cbn [app].
  - destruct (N.eqb_spec QUOTE x) as [<-|Hx].
    + change (BACKSLASH :: QUOTE :: v) with ([BACKSLASH; QUOTE] ++ v).
      rewrite replace_hit_app by discriminate.
      cbn [app]. rewrite escaped_cons, N.eqb_refl, IH. reflexivity.
    + rewrite replace_miss.
      * rewrite replace_miss by apply Hmiss.
        rewrite !escaped_cons, IH.
        apply N.eqb_neq in Hx. rewrite Hx. reflexivity.
      * cbn [Py.startswith]. apply N.eqb_neq in Hx. rewrite N.eqb_refl, Hx. reflexivity.
  - rewrite replace_miss by apply Hmiss.
    rewrite escaped_cons, IH. apply N.eqb_neq in Hx.
    rewrite N.eqb_sym, Hx. reflexivity.
Qed.

(** X1: for the literal of every match of [KV_VALUE_RE], encoding the
    decoded literal gives the literal back: the escapes the scan lets
    through are the ones [encode] writes. *)
Theorem encode_decode_scanned (s : str) (m : Match) :
  match_at KV_VALUE_RE s = Some m ->
  encode (decode (group m 2)) = group m 2.
Proof.
  intros H. destruct (kv_literal _ H) as [t [-> Ht]].
  rewrite decode_in_quotes. unfold encode.
  fold (escaped (Py.replace t [BACKSLASH; QUOTE] [QUOTE])).
  rewrite (escape_unescape Ht). reflexivity.
Qed.

Lemma encode_decode_scanned_witness :
  let literal := [QUOTE] ++ lit "a" ++ [BACKSLASH; QUOTE] ++ lit "b"
                 ++ [BACKSLASH; BACKSLASH; QUOTE] in
  let text := lit ": " ++ literal ++ lit " rest" in
  let m := {| group0 := lit ": " ++ literal;
              groups := [(2, literal); (1, lit ": ")];
              rest := lit " rest" |} in
  match_at KV_VALUE_RE text = Some m /\
  encode (decode (group m 2)) = group m 2.
Proof.
  intros literal text m.
  assert (E : match_at KV_VALUE_RE text = Some m) by reflexivity.
  split; [exact E|]. apply (@encode_decode_scanned text m E).
Defined.

(** ** Texts the pipeline leaves as they are *)

Lemma in_replace_fuel (old new : str) (c : char) :
  forall fuel s, In c (Py.replace_fuel fuel s old new) -> In c s \/ In c new.
Proof.
  induction fuel as [|f IH]; intros s H; [left; exact H|].
  cbn [Py.replace_fuel] in H. destruct (Py.startswith s old).
  - apply in_app_or in H. destruct H as [H|H]; [right; exact H|].
    destruct (IH _ H) as [H'|H']; [left|right; exact H'].
    rewrite <- (firstn_skipn (length old) s). apply in_or_app. right. exact H'.
  - destruct s as [|a s]; [destruct H|].
    destruct H as [H|H]; [left; left; exact H|].
    destruct (IH _ H) as [H'|H']; [left; right; exact H'|right; exact H'].
Qed.

Lemma existsb_false (p : char -> bool) (s : str) :
  existsb p s = false <-> forall c, In c s -> p c = false.
Proof.
  split.
  - intros H c Hc. destruct (p c) eqn:E; [|reflexivity].
    rewrite <- H. symmetry. apply existsb_exists. exists c. auto.
  - intros H. destruct (existsb p s) eqn:E; [|reflexivity].
    apply existsb_exists in E. destruct E as [c [Hc E]]. rewrite (H c Hc) in E. discriminate.
Qed.

(** [replace] brings in no character that is not in the text or in the
    text put in. *)
Lemma existsb_replace (p : char -> bool) (s new : str) (a : char) (old : str) :
  existsb p s = false -> existsb p new = false ->
  existsb p (Py.replace s (a :: old) new) = false.
Proof.
  rewrite !existsb_false. intros Hs Hnew c Hc. unfold Py.replace in Hc.
  apply in_replace_fuel in Hc. destruct Hc; auto.
Qed.

Lemma cyrillic_free_app (a b : str) :
  cyrillic_free (a ++ b) <-> cyrillic_free a /\ cyrillic_free b.
Proof. unfold cyrillic_free. rewrite existsb_app. apply orb_false_iff. Qed.

(** A literal of the scan without a Cyrillic character needs no
    translation. *)
Lemma cyrillic_free_literal (s : str) (m : Match) :
  match_at KV_VALUE_RE s = Some m -> cyrillic_free s ->
  needs_translation (decode (group m 2)) = false.
Proof.
  intros Hm Hs.
  destruct (match_at_split _ _ Hm) as [E _]. destruct (kv_groups _ Hm) as [Eg _].
  rewrite E, Eg in Hs.
  apply cyrillic_free_app in Hs. destruct Hs as [Hs _].
  apply cyrillic_free_app in Hs. destruct Hs as [_ Hs].
  destruct (kv_literal _ Hm) as [t [Et _]]. rewrite Et in *.
  rewrite decode_in_quotes, needs_translation_existsb.
  apply cyrillic_free_app in Hs. destruct Hs as [_ Hs].
  apply cyrillic_free_app in Hs. destruct Hs as [Hs _].
  apply existsb_replace; [exact Hs|reflexivity].
Qed.

(** When [repl] returns the text of every match of a text that satisfies
    [P], and leaves the state, and [P] goes over to the parts of a text,
    the text and the state are returned. *)
Lemma replaced_fixed (St : Type) (P : str -> Prop) (r : regex)
      (repl : Match -> St -> outcome str * St) :
  (forall a b, P (a ++ b) -> P a /\ P b) ->
  (forall s m st, P s -> match_at r s = Some m -> repl m st = (Ok (group0 m), st)) ->
  forall s ms tail, scanned r s ms tail -> P s ->
  forall st, replaced_raising repl ms tail st = (Ok s, st).
Proof.
  intros Hparts Hrepl s ms tail.
  induction 1 as [s H|s gap m ms tail H _ IH]; intros Hs st; [reflexivity|].
  destruct (search_split _ _ H) as [E [Hm _]].
  rewrite E in Hs. apply Hparts in Hs. destruct Hs as [_ Hs].
  cbn [replaced_raising]. rewrite (Hrepl _ _ st Hs Hm).
  apply Hparts in Hs. destruct Hs as [_ Hs].
  rewrite (IH Hs). rewrite <- E. reflexivity.
Qed.

(** X2: a text without a Cyrillic character is returned as it is by
    [new_text], and the translation function is not called: the world is
    the one before, whatever the function is. *)
Theorem new_text_cyrillic_free
        (World : Type) (translate_func : str -> World -> reply * World)
        (text : str) (w : World) :
  cyrillic_free text ->
  new_text translate_func text w = (Ok text, w).
Proof.
  intros Hfree. unfold new_text. rewrite sub_raising_replaced.
  apply (@replaced_fixed World cyrillic_free KV_VALUE_RE).
  - intros a b. apply cyrillic_free_app.
  - intros s m st Hs Hm. destruct (kv_groups _ Hm) as [-> _].
    apply replace_value_skip. apply (cyrillic_free_literal Hm Hs).
  - apply finditer_scanned. reflexivity.
  - exact Hfree.
Qed.

Lemma new_text_cyrillic_free_witness :
  let text := lit "{ title: " ++ [QUOTE] ++ lit "Good day, %1!" ++ [QUOTE] ++ lit " }" in
  cyrillic_free text /\ new_text counting text 0 = (Ok text, 0).
Proof.
  intros text. split; [reflexivity|].
  apply (@new_text_cyrillic_free nat counting text 0). reflexivity.
Defined.

(** ** A translation function that returns its input *)

(** The steps of unescaping a text: at a backslash and a quote, or at any
    other character. *)
Lemma unescape_steps (P : str -> Prop) :
  P [] ->
  (forall s, P s -> P (BACKSLASH :: QUOTE :: s)) ->
  (forall c s, Py.startswith (c :: s) [BACKSLASH; QUOTE] = false -> P s -> P (c :: s)) ->
  forall s, P s.
Proof.
  intros Hnil Hhit Hmiss s.
  enough (H : P s /\ forall c, P (c :: s)) by apply H.
  induction s as [|a s [IH1 IH2]].
  - split; [exact Hnil|]. intros c. apply Hmiss; [|exact Hnil].
    cbn [Py.startswith]. apply andb_false_r.
  - split; [apply IH2|]. intros c.
    destruct (Py.startswith (c :: a :: s) [BACKSLASH; QUOTE]) eqn:E.
    + apply startswith_inv in E. destruct E as [u E]. injection E as -> -> ->.
      apply Hhit, IH1.
    + apply Hmiss; [exact E|apply IH2].
Qed.

(** A text without quote at the start of an unescaped text is at the start
    of the text. *)
Lemma startswith_unescape (p : str) :
  existsb (N.eqb QUOTE) p = false ->
  forall s, Py.startswith (Py.replace s [BACKSLASH; QUOTE] [QUOTE]) p = true ->
            Py.startswith s p = true.
Proof.
  induction p as [|a p IH]; intros Hp s; [intros _; apply startswith_nil|].
  cbn [existsb] in Hp. apply orb_false_iff in Hp. destruct Hp as [Ha Hp].
  revert s. apply (unescape_steps (fun s => _ -> _)).
  - discriminate.
  - intros s _. change (BACKSLASH :: QUOTE :: s) with ([BACKSLASH; QUOTE] ++ s).
    rewrite replace_hit_app by discriminate. cbn [app Py.startswith].
    rewrite N.eqb_sym, Ha. discriminate.
  - intros c s Hmiss _. rewrite replace_miss by exact Hmiss.
    cbn [Py.startswith]. intros H. apply andb_true_iff in H. destruct H as [H1 H2].
    rewrite H1, (IH Hp _ H2). reflexivity.
Qed.

(** Unescaping brings no MASK into a text. *)
Lemma mask_free_unescape (s : str) :
  mask_free s -> mask_free (Py.replace s [BACKSLASH; QUOTE] [QUOTE]).
Proof.
  revert s. apply (unescape_steps (fun s => mask_free s -> mask_free _)).
  - intros _. reflexivity.
  - intros s IH Hs. change (BACKSLASH :: QUOTE :: s) with ([BACKSLASH; QUOTE] ++ s) in *.
    rewrite replace_hit_app by discriminate.
    apply (contains_app_r _ _ _) in Hs. specialize (IH Hs).
    unfold mask_free in *. cbn [app]. rewrite contains_cons, IH. reflexivity.
  - intros c s Hmiss IH Hs.
    pose proof (mask_free_tail Hs) as Hs'. specialize (IH Hs').
    destruct (Py.contains (Py.replace (c :: s) [BACKSLASH; QUOTE] [QUOTE]) (lit "MASK"))
      eqn:E; [exfalso|exact E].
    rewrite replace_miss in E by exact Hmiss.
    rewrite contains_cons in E. unfold mask_free in IH. rewrite IH, orb_false_r in E.
    rewrite <- (@replace_miss c s [BACKSLASH; QUOTE] [QUOTE] Hmiss) in E.
    apply startswith_unescape in E; [|reflexivity].
    unfold mask_free in Hs. rewrite contains_cons, E in Hs. discriminate.
Qed.

(** Masking and unmasking a text without MASK. *)
Lemma unmask_after_mask (s masked : str) (masks : list str) :
  mask_free s -> mask_fragments s = (masked, masks) ->
  unmask_fragments masked masks = s.
Proof.
  intros Hfree E. rewrite mask_fragments_scan in E. injection E as <- <-.
  pose proof (@finditer_scanned PLACEHOLDER_RE s nullable_PLACEHOLDER_RE) as Hs.
  apply scanned_original in Hs.
  set (ms := fst (finditer PLACEHOLDER_RE s)) in *.
  set (tail := snd (finditer PLACEHOLDER_RE s)) in *.
  assert (Hfree' : mask_free ([] ++ original ms tail))
    by (cbn [app]; rewrite <- Hs; exact Hfree).
  pose proof (fold_unmask_masked ms 0 [] tail Hfree') as H.
  cbn [app] in H. rewrite <- Hs in H. exact H.
Qed.

(** With a translation function that returns its input, [_replace_value]
    returns the text of a match of a text without MASK. *)
Lemma replace_value_echo
      (World : Type) (translate_func : str -> World -> reply * World)
      (s : str) (m : Match) (w : World) :
  (forall t w0, fst (translate_func t w0) = Returned t) ->
  mask_free s -> match_at KV_VALUE_RE s = Some m ->
  fst (_replace_value translate_func m w) = Ok (group0 m).
Proof.
  intros Hecho Hfree Hm.
  destruct (match_at_split _ _ Hm) as [E _]. destruct (kv_groups _ Hm) as [Eg _].
  destruct (kv_literal _ Hm) as [t [Et Ht]].
  assert (Hfree_t : mask_free t).
  { rewrite E, Eg, Et in Hfree.
    apply contains_app_l, contains_app_r, contains_app_r, contains_app_l in Hfree.
    exact Hfree. }
  rewrite Eg. unfold _replace_value, translate_value_literal. rewrite Et.
  destruct (in_quotes_intro t) as [H1 H2]. rewrite H1, H2. cbn [andb negb].
  rewrite decode_in_quotes.
  destruct (needs_translation (Py.replace t [BACKSLASH; QUOTE] [QUOTE]));
    cbn [negb]; [|reflexivity].
  destruct (mask_fragments (Py.replace t [BACKSLASH; QUOTE] [QUOTE]))
    as [masked masks] eqn:Em.
  specialize (Hecho masked w).
  destruct (translate_func masked w) as [[translated| |] w']; try discriminate.
  injection Hecho as ->. cbn [fst].
  rewrite (unmask_after_mask (mask_free_unescape Hfree_t) Em).
  unfold encode. fold (escaped (Py.replace t [BACKSLASH; QUOTE] [QUOTE])).
  rewrite (escape_unescape Ht). reflexivity.
Qed.

Lemma mask_free_parts (a b : str) : mask_free (a ++ b) -> mask_free a /\ mask_free b.
Proof. intros H. split; [apply (contains_app_l _ _ _ H)|apply (contains_app_r _ _ _ H)]. Qed.

(** X3: with a translation function that returns the text it is given,
    [new_text] returns a text without the word MASK as it is: masking,
    unmasking, decoding and encoding undo each other on every literal of
    the scan. *)
Theorem new_text_echo
        (World : Type) (translate_func : str -> World -> reply * World)
        (text : str) (w : World) :
  (forall t w0, fst (translate_func t w0) = Returned t) ->
  mask_free text ->
  fst (new_text translate_func text w) = Ok text.
Proof.
  intros Hecho Hfree. unfold new_text. rewrite sub_raising_replaced.
  apply (@replaced_same_on World mask_free KV_VALUE_RE).
  - apply mask_free_parts.
  - intros s m st Hs Hm.
    apply (@replace_value_echo World translate_func s m st Hecho Hs Hm).
  - apply finditer_scanned. reflexivity.
  - exact Hfree.
Qed.

Lemma new_text_echo_witness :
  let text := lit "x: " ++ [QUOTE] ++ hello_ru ++ [BACKSLASH; QUOTE; QUOTE] ++ lit "," in
  (forall t w0, fst (counting t w0) = Returned t) /\ mask_free text /\
  fst (new_text counting text 0) = Ok text.
Proof.
  intros text. split; [reflexivity|]. split; [reflexivity|].
  apply (@new_text_echo nat counting text 0); reflexivity.
Defined.

(** ** Masking a text without a protected fragment *)

(** No protected pattern matches at a character that none of them starts
    with, or at the end of the text. *)
Lemma match_at_placeholder_plain (s : str) :
  match s with
  | [] => True
  | c :: _ => negb (existsb (N.eqb c) [37; 123; 60; 38; 91]%N) = true
  end ->
  match_at PLACEHOLDER_RE s = None.
Proof.
  destruct s as [|c s]; intros H; [reflexivity|].
  apply negb_true_iff in H. cbn [existsb] in H.
  repeat (apply orb_false_iff in H; destruct H as [? H]).
  unfold match_at, PLACEHOLDER_RE, PLACEHOLDER_PATTERNS, Chr. cbn [join_alt run].
  rewrite !(N.eqb_sym _ c).
  repeat match goal with E : (c =? _)%N = false |- _ => rewrite E; clear E end.
  reflexivity.
Qed.

Lemma search_placeholder_plain (s : str) :
  plain s -> search PLACEHOLDER_RE s = None.
Proof.
  unfold plain. induction s as [|c s IH]; intros H.
  - reflexivity.
  - cbn [forallb] in H. apply andb_true_iff in H. destruct H as [Hc Hs].
    cbn [search]. rewrite (match_at_placeholder_plain (c :: s) Hc), (IH Hs). reflexivity.
Qed.

(** X4: a text with none of the characters that a protected fragment starts
    with (percent sign, opening brace, less-than sign, ampersand, opening
    bracket) is masked to itself, with no fragment recorded: the translation
    function gets such a text as it is. *)
Theorem mask_fragments_plain (s : str) :
  plain s -> mask_fragments s = (s, []).
Proof.
  intros H. unfold mask_fragments, sub.
  destruct (length s) as [|f]; [reflexivity|].
  cbn [sub_fuel]. rewrite (search_placeholder_plain H). reflexivity.
Qed.

Lemma mask_fragments_plain_witness :
  plain (lit "Hello, world! 100 }>;]") /\
  mask_fragments (lit "Hello, world! 100 }>;]") = (lit "Hello, world! 100 }>;]", []).
Proof.
  split; [reflexivity|]. apply (@mask_fragments_plain (lit "Hello, world! 100 }>;]")).
  reflexivity.
Defined.

(** ** The calls of the translation function *)

(** For a literal in quotes, [_replace_value] calls the translation
    function once, with the masked decoded text, when the decoded literal
    needs translation, and not at all when it does not. *)
Lemma replace_value_calls
      (World : Type) (translate_func : str -> World -> reply * World)
      (m : Match) (w : World) (log : list str) :
  in_quotes (group m 2) ->
  snd (snd (_replace_value (logged translate_func) m (w, log)))
  = log ++ (if needs_translation (decode (group m 2))
            then [fst (mask_fragments (decode (group m 2)))] else []).
Proof.
  intros Hq. apply in_quotes_test in Hq.
  unfold _replace_value, translate_value_literal. rewrite Hq. cbn [negb].
  destruct (needs_translation (decode (group m 2))); cbn [negb].
  - destruct (mask_fragments (decode (group m 2))) as [masked masks].
    unfold logged at 1. cbn [fst snd].
    destruct (fst (translate_func masked w)); reflexivity.
  - cbn [snd]. rewrite app_nil_r. reflexivity.
Qed.

Lemma calls_of_cons (gap : str) (m : Match) (ms : list (str * Match)) :
  calls_of ((gap, m) :: ms)
  = (if needs_translation (decode (group m 2))
     then [fst (mask_fragments (decode (group m 2)))] else []) ++ calls_of ms.
Proof.
  unfold calls_of, to_translate. cbn [filter snd].
  destruct (needs_translation (decode (group m 2))); reflexivity.
Qed.

Lemma firstn_over (A : Type) (l1 l2 : list A) (k : nat) :
  firstn (length l1 + k) (l1 ++ l2) = l1 ++ firstn k l2.
Proof. induction l1 as [|a l1 IH]; cbn; [reflexivity|]. rewrite IH. reflexivity. Qed.

Lemma scanned_calls
      (World : Type) (translate_func : str -> World -> reply * World)
      (s : str) ms tail :
  scanned KV_VALUE_RE s ms tail ->
  forall w log,
    (exists k,
       snd (snd (replaced_raising (_replace_value (logged translate_func)) ms tail (w, log)))
       = log ++ firstn k (calls_of ms)) /\
    (forall out,
       fst (replaced_raising (_replace_value (logged translate_func)) ms tail (w, log))
       = Ok out ->
       snd (snd (replaced_raising (_replace_value (logged translate_func)) ms tail (w, log)))
       = log ++ calls_of ms).
Proof.
  induction 1 as [s H|s gap m ms tail H _ IH]; intros w log.
  - cbn [replaced_raising fst snd]. unfold calls_of. cbn [to_translate filter map].
    split; [exists 0|intros out _]; rewrite app_nil_r; reflexivity.
  - destruct (search_split _ _ H) as [_ [Hm _]].
    destruct (kv_literal_escaped _ Hm) as [Hq _].
    pose proof (replace_value_calls translate_func m w log Hq) as Hc.
    rewrite calls_of_cons. cbn [replaced_raising].
    destruct (_replace_value (logged translate_func) m (w, log)) as [[new|e] [w1 log1]];
      cbn [snd] in Hc.
    + destruct (IH w1 log1) as [[k Hk] Hall].
      destruct (replaced_raising (_replace_value (logged translate_func)) ms tail (w1, log1))
        as [[out|e] [w2 log2]]; cbn [fst snd] in *.
      * split.
        -- eexists. rewrite firstn_over, Hk, Hc, <- app_assoc. reflexivity.
        -- intros out' _. rewrite (Hall _ eq_refl), Hc, <- app_assoc. reflexivity.
      * split; [|discriminate].
        eexists. rewrite firstn_over, Hk, Hc, <- app_assoc. reflexivity.
    + cbn [fst snd]. split; [|discriminate].
      exists (length (if needs_translation (decode (group m 2))
                      then [fst (mask_fragments (decode (group m 2)))] else []) + 0).
      rewrite firstn_over, Hc. cbn [firstn]. rewrite app_nil_r. reflexivity.
Qed.

(** X5: [new_text] calls the translation function once for each literal of
    the scan whose decoded text needs translation, in the order of the
    scan and with the masked decoded text of the literal, and it makes no
    other call. With a log of the calls beside the world: when [new_text]
    returns, the log has grown by exactly these texts, whatever the
    function returned or raised of the class [Exception]; in every case,
    also when an exception that is no [Exception] ends the substitution
    early, it has grown by the first ones of these texts. *)
Theorem new_text_calls
        (World : Type) (translate_func : str -> World -> reply * World)
        (text : str) (w : World) (log : list str) :
  (exists k,
     snd (snd (new_text (logged translate_func) text (w, log)))
     = log ++ firstn k (calls_of (fst (finditer KV_VALUE_RE text)))) /\
  (forall out,
     fst (new_text (logged translate_func) text (w, log)) = Ok out ->
     snd (snd (new_text (logged translate_func) text (w, log)))
     = log ++ calls_of (fst (finditer KV_VALUE_RE text))).
Proof.
  unfold new_text. rewrite sub_raising_replaced.
  apply (@scanned_calls World translate_func text).
  apply finditer_scanned. reflexivity.
Qed.

(** ** The translators *)


(** What the wrappers pass on: no exception of the class [Exception], and
    of the others only what the library of the engine raised. *)
Lemma translate_of_reply
      (World : Type) (google argos : str -> World -> reply * World)
      (sleep : nat -> World -> World) (t : translator) (x : str) (w : World) :
  match fst (translate_of google argos sleep t x w) with
  | Returned _ => True
  | RaisedException => False
  | RaisedBaseException =>
      exists w0, fst (library_of google argos t x w0) = RaisedBaseException
  end.
Proof.
  destruct t; unfold translate_of, library_of.
  - unfold GoogleTranslatorWrapper.translate.
    cbn [seq GoogleTranslatorWrapper.attempts].
    repeat match goal with
           | |- context [match google x ?w0 with _ => _ end] =>
               let E := fresh "E" in
               destruct (google x w0) as [[?| |] ?] eqn:E; cbn [fst];
               [exact I| |exists w0; rewrite E; reflexivity]
           end.
    exact I.
  - unfold ArgosTranslatorWrapper.translate.
    destruct (argos x w) as [[?| |] ?] eqn:E; cbn [fst];
      [exact I|exact I|exists w; rewrite E; reflexivity].
Qed.

(** The wrappers over libraries whose exceptions are all of the class
    [Exception] return the text given. *)
Lemma translate_of_down
      (World : Type) (google argos : str -> World -> reply * World)
      (sleep : nat -> World -> World) (t : translator) (x : str) (w : World) :
  (forall x w0, fst (google x w0) = RaisedException) ->
  (forall x w0, fst (argos x w0) = RaisedException) ->
  fst (translate_of google argos sleep t x w) = Returned x.
Proof.
  intros Hg Ha. destruct t; unfold translate_of.
  - unfold GoogleTranslatorWrapper.translate.
    cbn [seq GoogleTranslatorWrapper.attempts].
    repeat match goal with
           | |- context [google x ?w0] =>
               let E := fresh "E" in
               pose proof (Hg x w0) as E;
               destruct (google x w0) as [[?| |] ?]; try discriminate E; clear E
           end.
    reflexivity.
  - unfold ArgosTranslatorWrapper.translate.
    pose proof (Ha x w) as E. destruct (argos x w) as [[?| |] ?]; try discriminate E.
    reflexivity.
Qed.


(** X7: with the translator of either engine, the pipeline of a literal in
    quotes returns a literal, or raises an exception that is not of the
    class [Exception] and that the library of the engine raised: the
    wrappers catch every [Exception] of the libraries, in all their
    attempts, and none reaches [translate_value_literal]. *)
Theorem wrapped_pipeline_returns
        (World : Type) (google argos : str -> World -> reply * World)
        (sleep : nat -> World -> World) (t : translator) (literal : str) (w : World) :
  in_quotes literal ->
  (exists out w',
     translate_value_literal (translate_of google argos sleep t) literal w = (Ok out, w')) \/
  (fst (translate_value_literal (translate_of google argos sleep t) literal w)
   = Raise BackendInterrupt /\
   exists x w0, fst (library_of google argos t x w0) = RaisedBaseException).
Proof.
  intros Hq. apply in_quotes_test in Hq.
  unfold translate_value_literal. rewrite Hq. cbn [negb].
  destruct (needs_translation (decode literal)); cbn [negb]; [|left; eauto].
  destruct (mask_fragments (decode literal)) as [masked masks].
  pose proof (translate_of_reply google argos sleep t masked w) as H.
  destruct (translate_of google argos sleep t masked w) as [[translated| |] w'];
    cbn [fst] in H.
  - left. eauto.
  - destruct H.
  - right. split; [reflexivity|]. exists masked. exact H.
Qed.

Lemma wrapped_pipeline_returns_witness :
  in_quotes [QUOTE; 1044%N; QUOTE] /\
  ((exists out w',
      translate_value_literal (translate_of failing failing (fun _ w => w) Google)
                              [QUOTE; 1044%N; QUOTE] tt = (Ok out, w')) \/
   (fst (translate_value_literal (translate_of failing failing (fun _ w => w) Google)
                                 [QUOTE; 1044%N; QUOTE] tt)
    = Raise BackendInterrupt /\
    exists x w0, fst (library_of failing failing Google x w0) = RaisedBaseException)).
Proof.
  split; [split; reflexivity|].
  apply (@wrapped_pipeline_returns unit failing failing (fun _ w => w) Google
                                   [QUOTE; 1044%N; QUOTE] tt).
  split; reflexivity.
Defined.

(** X8: when the libraries raise an exception of the class [Exception] at
    every call, [new_text] with the translator of either engine returns a
    text without the word MASK as it is: a translation service that is
    down leaves the text untouched. *)
Theorem new_text_services_down
        (World : Type) (google argos : str -> World -> reply * World)
        (sleep : nat -> World -> World) (t : translator) (text : str) (w : World) :
  (forall x w0, fst (google x w0) = RaisedException) ->
  (forall x w0, fst (argos x w0) = RaisedException) ->
  mask_free text ->
  fst (new_text (translate_of google argos sleep t) text w) = Ok text.
Proof.
  intros Hg Ha Hfree. unfold new_text. rewrite sub_raising_replaced.
  apply (@replaced_same_on World mask_free KV_VALUE_RE).
  - apply mask_free_parts.
  - intros s m st Hs Hm.
    apply (@replace_value_echo World (translate_of google argos sleep t) s m st); auto.
    intros x w0. apply translate_of_down; assumption.
  - apply finditer_scanned. reflexivity.
  - exact Hfree.
Qed.

Lemma new_text_services_down_witness :
  let text := lit "x: " ++ [QUOTE] ++ hello_ru ++ [QUOTE] ++ lit "," in
  (forall x w0, fst (failing x w0) = RaisedException) /\ mask_free text /\
  fst (new_text (translate_of failing failing (fun _ w => w) Google) text tt) = Ok text.
Proof.
  intros text. split; [reflexivity|]. split; [reflexivity|].
  apply (@new_text_services_down unit failing failing (fun _ w => w) Google text tt);
    reflexivity.
Defined.

(** ** The default path of the output *)

Section DefaultOutput.

Variable isword : char -> bool.


Lemma at_end_short (s : str) : at_end s = true -> s = [] \/ s = [NEWLINE].
Proof.
  destruct s as [|c [|d s]]; cbn [at_end]; intros H; try discriminate; auto.
  apply N.eqb_eq in H. subst c. auto.
Qed.

Lemma star_text_words (t : str) :
  star_text (fun u => exists x, u = [x] /\ isword x = true) t -> forallb isword t = true.
Proof.
  induction 1 as [|u v [x [-> Hx]] _ IH]; [reflexivity|].
  cbn [app forallb]. rewrite Hx, IH. reflexivity.
Qed.

(** What [\.\w+] consumes: a dot and one or more characters of [\w]. *)
Lemma run_EXT s c s' c' :
  In (s', c') (run (EXT isword) s c) ->
  exists u, s = 46%N :: u ++ s' /\ u <> [] /\ forallb isword u = true.
Proof.
  unfold EXT, Plus. cbn [run]. intros H.
  apply in_flat_map in H. destruct H as [[s1 c1] [H1 H]].
  apply in_flat_map in H. destruct H as [[s2 c2] [H2 H3]].
  apply run_Cls in H1. destruct H1 as [x [-> [Hx _]]]. apply N.eqb_eq in Hx. subst x.
  apply run_Cls in H2. destruct H2 as [y [-> [Hy _]]].
  apply (star_loop_text (fun u => exists x, u = [x] /\ isword x = true)) in H3.
  - destruct H3 as [t [-> Ht]]. exists (y :: t). split; [reflexivity|].
    split; [discriminate|]. cbn [forallb]. rewrite Hy. apply star_text_words, Ht.
  - intros s c0 s0 c0' Hin. apply run_Cls in Hin. destruct Hin as [x [-> [Hx _]]].
    exists [x]. split; [reflexivity|]. exists x. auto.
Qed.

(** The first way of a greedy [\w*] on characters of [\w] takes them all. *)
Lemma star_words_greedy (e : str) :
  forallb isword e = true ->
  forall fuel c, length e <= fuel ->
    exists l, star_loop (run (Cls isword)) true fuel e c = ([], c) :: l.
Proof.
  induction e as [|x e IH]; intros He fuel c Hfuel.
  - exists []. destruct fuel; reflexivity.
  - cbn [forallb] in He. apply andb_true_iff in He. destruct He as [Hx He].
    destruct fuel as [|f]; [cbn [length] in Hfuel; lia|].
    cbn [length] in Hfuel.
    destruct (IH He f c) as [l Hl]; [lia|].
    cbn [star_loop].
    change (run (Cls isword) (x :: e) c) with (if isword x then [(e, c)] else []).
    rewrite Hx. cbn [flat_map length].
    replace (length e <? S (length e)) with true by (symmetry; apply Nat.ltb_lt; lia).
    rewrite Hl. eexists. cbn [app]. reflexivity.
Qed.

Lemma run_EXT_greedy (ext : str) :
  ext <> [] -> forallb isword ext = true ->
  exists c l, run (Group 1 (EXT isword)) (46%N :: ext) [] = ([], c) :: l.
Proof.
  intros Hne He. destruct ext as [|x e]; [congruence|].
  cbn [forallb] in He. apply andb_true_iff in He. destruct He as [Hx He].
  destruct (@star_words_greedy e He (length e) [] (le_n _)) as [l Hl].
  unfold EXT, Plus, Chr. cbn [run flat_map]. rewrite N.eqb_refl. cbn [flat_map app].
  rewrite Hx. cbn [flat_map app]. rewrite !app_nil_r.
  match goal with
  | |- context [star_loop ?b true (length e) e []] =>
      change (star_loop b true (length e) e [])
        with (star_loop (run (Cls isword)) true (length e) e [])
  end.
  rewrite Hl. cbn [map]. eauto.
Qed.

Lemma filter_none (A : Type) (f : A -> bool) (l : list A) :
  (forall x, In x l -> f x = false) -> filter f l = [].
Proof.
  induction l as [|a l IH]; intros H; [reflexivity|].
  cbn [filter]. rewrite (H a (or_introl eq_refl)). apply IH.
  intros x Hx. apply H. right. exact Hx.
Qed.

Lemma first_match_none (s : str) (must_advance : bool) :
  (no_match_here isword) s -> first_match (ext_matcher isword) must_advance s = None.
Proof.
  intros [Hend Hext]. unfold first_match.
  assert (E : (ext_matcher isword) s = []).
  { unfold ext_matcher, run_opt_end. apply filter_none. intros [s' c'] Hin. cbn [fst].
    apply in_app_or in Hin. destruct Hin as [Hin|[Hin|[]]].
    - cbn [run] in Hin. apply in_map_iff in Hin. destruct Hin as [[s1 c1] [E Hin]].
      injection E as <- _. apply run_EXT in Hin. destruct Hin as [u [Hs [Hu Hw]]].
      apply (Hext u s1 Hs Hu Hw).
    - injection Hin as <- _. exact Hend. }
  rewrite E. reflexivity.
Qed.

(** The search goes over a prefix in which the pattern matches nowhere. *)
Lemma search_from_skip (pre s gap matched s' : str) (must_advance : bool) :
  (forall q q', pre = q ++ q' -> q' <> [] -> (no_match_here isword) (q' ++ s)) ->
  search_from (ext_matcher isword) false s = Some (gap, matched, s') ->
  pre <> [] \/ must_advance = false ->
  search_from (ext_matcher isword) must_advance (pre ++ s) = Some (pre ++ gap, matched, s').
Proof.
  revert must_advance. induction pre as [|a pre IH]; intros must_advance Hpre Hs Hadv.
  - destruct Hadv as [Hadv| ->]; [congruence|]. exact Hs.
  - cbn [app search_from].
    rewrite first_match_none by (apply (Hpre [] (a :: pre)); [reflexivity|discriminate]).
    rewrite (IH false); [reflexivity| |exact Hs|right; reflexivity].
    intros q q' E Hq'. apply (Hpre (a :: q) q'); [rewrite E; reflexivity|exact Hq'].
Qed.

Lemma suffix_nil : (ext_matcher isword) [] = [([], [])].
Proof. reflexivity. Qed.

(** At the end of the text the empty match is found once: the search after
    it has to advance and finds nothing. *)
Lemma sub_text_at_end (fuel : nat) (repl : str) :
  sub_text_fuel fuel (ext_matcher isword) repl true [] = [] /\
  sub_text_fuel (S fuel) (ext_matcher isword) repl false [] = repl.
Proof.
  assert (H : sub_text_fuel fuel (ext_matcher isword) repl true [] = []) by (destruct fuel; reflexivity).
  split; [exact H|].
  change (sub_text_fuel (S fuel) (ext_matcher isword) repl false [])
    with ([] ++ repl ++ sub_text_fuel fuel (ext_matcher isword) repl true []).
  rewrite H. apply app_nil_r.
Qed.

Lemma sub_text_fuel_step (f : nat) (m : str -> list (str * captures))
      (repl : str) (must_advance : bool) (s : str) :
  sub_text_fuel (S f) m repl must_advance s
  = match search_from m must_advance s with
    | None => s
    | Some (gap, matched, s') =>
        gap ++ repl
        ++ sub_text_fuel f m repl (match matched with [] => true | _ => false end) s'
    end.
Proof. reflexivity. Qed.

Lemma at_end_long (s : str) : 2 <= length s -> at_end s = false.
Proof. destruct s as [|c [|d s]]; cbn [length at_end]; intros H; [lia|lia|reflexivity]. Qed.

(** A run of characters of [\w] at the start of a text that goes on with a
    dot ends before the dot. *)
Lemma words_before_dot (u x ext s' : str) :
  isword 46%N = false -> forallb isword u = true ->
  x ++ 46%N :: ext = u ++ s' -> exists y, s' = y ++ 46%N :: ext.
Proof.
  intros Hdot. revert x. induction u as [|b u IH]; intros x Hu E.
  - exists x. symmetry. exact E.
  - cbn [forallb] in Hu. apply andb_true_iff in Hu. destruct Hu as [Hb Hu].
    destruct x as [|a x]; cbn [app] in E; injection E as E1 E2.
    + subst b. congruence.
    + apply (IH x Hu E2).
Qed.

(** With a replacement [repl], a text that ends with an extension gets
    [repl] for the extension and [repl] once more for the empty match at
    the end. *)
Lemma sub_text_extension (repl stem ext : str) :
  isword 46%N = false -> ext <> [] -> forallb isword ext = true ->
  sub_text (ext_matcher isword) repl (stem ++ 46%N :: ext) = stem ++ repl ++ repl.
Proof.
  intros Hdot Hne Hext. unfold sub_text.
  replace (2 * length (stem ++ 46%N :: ext) + 2)
    with (S (S (2 * length (stem ++ 46%N :: ext)))) by lia.
  assert (Hs : search_from (ext_matcher isword) false (stem ++ 46%N :: ext)
               = Some (stem ++ [], 46%N :: ext, [])).
  { apply search_from_skip; [| |right; reflexivity].
    - intros q q' _ Hq'. split.
      + apply at_end_long. destruct q'; [congruence|].
        destruct ext; [congruence|]. cbn [length app]. rewrite length_app. cbn [length]. lia.
      + intros u s' E Hu Hw. destruct q' as [|a q']; [congruence|].
        cbn [app] in E. injection E as _ E.
        destruct (@words_before_dot u q' ext s' Hdot Hw E) as [y ->].
        apply at_end_long. destruct ext; [congruence|].
        rewrite length_app. cbn [length]. lia.
    - cbn [search_from]. unfold first_match, ext_matcher, run_opt_end.
      destruct (run_EXT_greedy Hne Hext) as [c [l ->]].
      cbn [app filter fst at_end length Nat.eqb andb negb Nat.sub firstn].
      rewrite firstn_all. reflexivity. }
  rewrite sub_text_fuel_step, Hs, app_nil_r.
  destruct (sub_text_at_end (2 * length (stem ++ 46%N :: ext)) repl) as [_ ->].
  reflexivity.
Qed.

(** With a replacement [repl], a text that ends neither with an extension
    nor with a newline gets [repl] at its end. *)
Lemma sub_text_no_extension (repl path : str) :
  no_final_newline path -> no_extension isword path ->
  sub_text (ext_matcher isword) repl path = path ++ repl.
Proof.
  intros Hnl Hext. unfold sub_text.
  replace (2 * length path + 2) with (S (S (2 * length path))) by lia.
  assert (Hs : search_from (ext_matcher isword) false (path ++ [])
               = Some (path ++ [], [], [])).
  { apply search_from_skip; [|reflexivity|right; reflexivity].
    intros q q' E Hq'. rewrite app_nil_r. split.
    - destruct (at_end q') eqn:Eend; [exfalso|reflexivity].
      apply at_end_short in Eend. destruct Eend as [->| ->]; [congruence|].
      apply (Hnl q E).
    - intros u s' E' Hu Hw. destruct (at_end s') eqn:Eend; [exfalso|reflexivity].
      apply at_end_short in Eend. destruct Eend as [->| ->].
      + rewrite app_nil_r in E'. subst q'.
        destruct (Hext q u E) as [->|Hf]; congruence.
      + apply (Hnl (q ++ 46%N :: u)). rewrite E, E', <- app_assoc. reflexivity. }
  rewrite app_nil_r in Hs. rewrite sub_text_fuel_step, Hs.
  destruct (sub_text_at_end (S (2 * length path)) repl) as [-> _].
  rewrite app_nil_r. reflexivity.
Qed.

(** X9: for a path that ends with an extension, a dot and one or more
    characters of [\w], [default_output] replaces the extension by
    [.uk.js] and puts [.uk.js] once more after it: the pattern matches the
    extension and then the empty text at the end. The default output of
    [ru.js] is [ru.uk.js.uk.js]. The dot is no character of [\w]. *)
Theorem default_output_extension (stem ext : str) :
  isword 46%N = false -> ext <> [] -> forallb isword ext = true ->
  default_output isword (stem ++ 46%N :: ext) = stem ++ lit ".uk.js" ++ lit ".uk.js".
Proof.
  intros Hdot Hne Hext. unfold default_output.
  fold (EXT isword). fold (ext_matcher isword).
  apply sub_text_extension; assumption.
Qed.

(** X10: for a path that ends neither with an extension nor with a
    newline, [default_output] is the path with [.uk.js] after it. *)
Theorem default_output_plain (path : str) :
  no_final_newline path -> no_extension isword path ->
  default_output isword path = path ++ lit ".uk.js".
Proof.
  intros Hnl Hext. unfold default_output.
  fold (EXT isword). fold (ext_matcher isword).
  apply sub_text_no_extension; assumption.
Qed.

End DefaultOutput.

Lemma default_output_extension_witness :
  default_output (fun c => Py.is_ascii_digit c || Range 97 122 c) (lit "ru.js")
  = lit "ru.uk.js.uk.js".
Proof.
  apply (@default_output_extension (fun c => Py.is_ascii_digit c || Range 97 122 c)
                                   (lit "ru") (lit "js")).
  - reflexivity.
  - discriminate.
  - reflexivity.
Defined.

Lemma default_output_plain_witness :
  let isword := fun c => (Py.is_ascii_digit c || Range 97 122 c)%bool in
  no_final_newline (lit "dir.x/ru") /\ no_extension isword (lit "dir.x/ru") /\
  default_output isword (lit "dir.x/ru") = lit "dir.x/ru.uk.js".
Proof.
  intros isword.
  assert (Hnl : no_final_newline (lit "dir.x/ru")).
  { intros q E. apply (f_equal (@rev char)) in E. rewrite rev_app_distr in E.
    discriminate E. }
  assert (Hext : no_extension isword (lit "dir.x/ru")).
  { intros q w E.
    destruct q as [|? [|? [|? [|? [|? [|? [|? [|? q]]]]]]]]; cbn [lit app] in E;
      try discriminate E; injection E; intros; subst; auto.
    destruct q; discriminate. }
  split; [exact Hnl|]. split; [exact Hext|].
  apply (@default_output_plain isword (lit "dir.x/ru") Hnl Hext).
Defined.

(** ** The files of a run *)

Lemma str_eqb_eq (s t : str) : Py.str_eqb s t = true <-> s = t.
Proof. unfold Py.str_eqb. destruct (list_eq_dec N.eq_dec s t); split; congruence. Qed.

Lemma str_eqb_refl (s : str) : Py.str_eqb s s = true.
Proof. apply str_eqb_eq. reflexivity. Qed.

Lemma str_eqb_neq (s t : str) : s <> t -> Py.str_eqb s t = false.
Proof. unfold Py.str_eqb. destruct (list_eq_dec N.eq_dec s t); congruence. Qed.

(** Writing a file leaves the other files, and the locks. *)
Lemma write_file_other (fs0 : FS) (path text p : str) :
  p <> path -> files (snd (write_file fs0 path text)) p = files fs0 p.
Proof.
  intros Hp. unfold write_file, with_file. destruct (locked fs0 path); [reflexivity|].
  destruct (unencodable text); cbn [snd files]; rewrite (str_eqb_neq Hp); reflexivity.
Qed.

Lemma write_file_locked (fs0 : FS) (path text p : str) :
  locked (snd (write_file fs0 path text)) p = locked fs0 p.
Proof.
  unfold write_file. destruct (locked fs0 path); [reflexivity|].
  destruct (unencodable text); reflexivity.
Qed.

Lemma write_file_done (fs0 : FS) (path text : str) :
  locked fs0 path = false -> unencodable text = false ->
  fst (write_file fs0 path text) = Done tt /\
  files (snd (write_file fs0 path text)) path = Some text.
Proof.
  intros H He. unfold write_file. rewrite H, He. cbn [fst snd files with_file].
  rewrite str_eqb_refl. auto.
Qed.

(** A path that cannot be written: nothing is done to the files. *)
Lemma write_file_refused (fs0 : FS) (path text : str) :
  locked fs0 path = true -> write_file fs0 path text = (Failed OSError, fs0).
Proof. intros H. unfold write_file. rewrite H. reflexivity. Qed.

(** A text read is a text that can be written. *)
Lemma decoded_encodable (content : str) : unencodable (decoded content) = false.
Proof.
  unfold unencodable, decoded. induction content as [|c l IH]; [reflexivity|].
  cbn [map existsb]. rewrite IH, orb_false_r.
  destruct (is_surrogate c) eqn:E; [reflexivity|exact E].
Qed.

Lemma read_file_encodable (fs0 : FS) (path text : str) :
  read_file fs0 path = Done text -> unencodable text = false.
Proof.
  unfold read_file. destruct (files fs0 path) as [content|]; [|discriminate].
  intros E. injection E as <-. apply decoded_encodable.
Qed.



(** The backup step leaves the files at the other paths, and the locks. *)
Lemma after_backup_other (World : Type) (m : Machine World) (input_path text p : str) :
  p <> input_path ++ lit ".bak" ->
  files (after_backup m input_path text) p = files (fs m) p.
Proof.
  intros Hp. unfold after_backup. destruct (negb _); [|reflexivity].
  apply write_file_other. exact Hp.
Qed.

Lemma after_backup_locked (World : Type) (m : Machine World) (input_path text p : str) :
  locked (after_backup m input_path text) p = locked (fs m) p.
Proof.
  unfold after_backup. destruct (negb _); [apply write_file_locked|reflexivity].
Qed.

(** *** A translation that is interrupted *)


Section Runs.

Variable World : Type.
Variable google argos : str -> World -> reply * World.
Variable sleep : nat -> World -> World.
Variable lower : str -> str.

(** A run of [process_file] with a known engine and an input that is
    there, after the backup step. *)
Lemma process_file_run (input_path output_path engine : str) (m : Machine World)
      (t : translator) (text : str) :
  get_translator lower engine = Done t ->
  read_file (fs m) input_path = Done text ->
  process_file google argos sleep lower input_path output_path engine m
  = match new_text (translate_of google argos sleep t) text (world m) with
    | (Raise _, w') =>
        (Failed Interrupted,
         {| fs := after_backup m input_path text; world := w';
            stdout := stdout m; stderr := stderr m |})
    | (Ok new, w') =>
        match write_file (after_backup m input_path text) output_path new with
        | (Failed e, fs2) =>
            (Failed e, {| fs := fs2; world := w'; stdout := stdout m; stderr := stderr m |})
        | (Done _, fs2) =>
            (Done tt,
             {| fs := fs2; world := w';
                stdout := stdout m ++ [MSG_SAVED ++ output_path;
                                       MSG_BACKUP ++ input_path ++ lit ".bak"];
                stderr := stderr m |})
        end
    end.
Proof. intros Ht Hin. unfold process_file. rewrite Ht, Hin. reflexivity. Qed.

(** The files of such a run at the paths that are not the output: they
    are those after the backup step, whatever the outcome. *)
Lemma process_file_files (input_path output_path engine : str) (m : Machine World)
      (t : translator) (text p : str) :
  get_translator lower engine = Done t ->
  read_file (fs m) input_path = Done text ->
  p <> output_path ->
  files (fs (snd (process_file google argos sleep lower input_path output_path engine m))) p
  = files (after_backup m input_path text) p.
Proof.
  intros Ht Hin Hp. rewrite (@process_file_run input_path output_path engine m t text Ht Hin).
  destruct (new_text (translate_of google argos sleep t) text (world m)) as [[new|e] w'];
    [|reflexivity].
  pose proof (@write_file_other (after_backup m input_path text) output_path new p Hp) as Ho.
  destruct (write_file (after_backup m input_path text) output_path new) as [[[]|e] fs2];
    cbn [snd fs] in *; exact Ho.
Qed.

(** X11: when the engine is unknown or the input file cannot be read,
    [process_file] fails and leaves everything as it was: no backup is
    made, no file is written, the translation library is not called and
    nothing is printed. *)
Theorem process_file_early_failure
        (input_path output_path engine : str) (m : Machine World) :
  (exists e, get_translator lower engine = Failed e) \/ files (fs m) input_path = None ->
  exists e, process_file google argos sleep lower input_path output_path engine m
            = (Failed e, m).
Proof.
  intros [[e He]|Hin]; unfold process_file.
  - rewrite He. eauto.
  - destruct (get_translator lower engine) as [t|e]; [|eauto].
    unfold read_file. rewrite Hin. eauto.
Qed.

(** X12: a backup that is there is not written again: after
    [process_file], whatever its outcome, the file at the backup path has
    the text it had, unless the output path is that very path. *)
Theorem backup_kept
        (input_path output_path engine : str) (m : Machine World) (old : str) :
  files (fs m) (input_path ++ lit ".bak") = Some old ->
  output_path <> input_path ++ lit ".bak" ->
  files (fs (snd (process_file google argos sleep lower input_path output_path engine m)))
        (input_path ++ lit ".bak") = Some old.
Proof.
  intros Hold Hout.
  destruct (get_translator lower engine) as [t|e] eqn:Ht;
    [|unfold process_file; rewrite Ht; exact Hold].
  destruct (read_file (fs m) input_path) as [text|e] eqn:Hin;
    [|unfold process_file; rewrite Ht, Hin; exact Hold].
  rewrite (@process_file_files input_path output_path engine m t text _ Ht Hin)
    by (intros E; apply Hout; symmetry; exact E).
  unfold after_backup, exists_. rewrite Hold. exact Hold.
Qed.


(** X14: [process_file] touches two paths at most: after it, whatever its
    outcome, every file but the output and the backup is as it was; so is
    the input file, unless it is the output. *)
Theorem process_file_frame
        (input_path output_path engine : str) (m : Machine World) (p : str) :
  p <> output_path -> p <> input_path ++ lit ".bak" ->
  files (fs (snd (process_file google argos sleep lower input_path output_path engine m))) p
  = files (fs m) p.
Proof.
  intros Hout Hbak.
  destruct (get_translator lower engine) as [t|e] eqn:Ht;
    [|unfold process_file; rewrite Ht; reflexivity].
  destruct (read_file (fs m) input_path) as [text|e] eqn:Hin;
    [|unfold process_file; rewrite Ht, Hin; reflexivity].
  rewrite (@process_file_files input_path output_path engine m t text p Ht Hin Hout).
  apply after_backup_other. exact Hbak.
Qed.

(** X15: when there is no backup yet and the backup path can be written,
    the backup of a run with a known engine holds the text of the input as
    it was read, whether the output is written or not, unless the output
    path is the backup path. *)
Theorem backup_made
        (input_path output_path engine : str) (m : Machine World)
        (t : translator) (text : str) :
  get_translator lower engine = Done t ->
  read_file (fs m) input_path = Done text ->
  files (fs m) (input_path ++ lit ".bak") = None ->
  locked (fs m) (input_path ++ lit ".bak") = false ->
  output_path <> input_path ++ lit ".bak" ->
  files (fs (snd (process_file google argos sleep lower input_path output_path engine m)))
        (input_path ++ lit ".bak") = Some text.
Proof.
  intros Ht Hin Hnone Hlock Hout.
  rewrite (@process_file_files input_path output_path engine m t text _ Ht Hin)
    by (intros E; apply Hout; symmetry; exact E).
  unfold after_backup, exists_. rewrite Hnone. cbn [negb].
  apply write_file_done; [exact Hlock|]. apply (@read_file_encodable _ _ _ Hin).
Qed.

(** X18: when the output path cannot be written, a run with a known engine
    and an input that is there, in which [new_text] returns, fails at the
    end: the translation library has been called for the whole text by
    then (the world is the one after [new_text]), nothing is printed, and
    the file at the output path is as it was. *)
Theorem process_file_output_locked
        (input_path output_path engine : str) (m : Machine World)
        (t : translator) (text new : str) (w' : World) :
  get_translator lower engine = Done t ->
  read_file (fs m) input_path = Done text ->
  locked (fs m) output_path = true ->
  new_text (translate_of google argos sleep t) text (world m) = (Ok new, w') ->
  let r := process_file google argos sleep lower input_path output_path engine m in
  fst r = Failed OSError /\
  world (snd r) = w' /\
  stdout (snd r) = stdout m /\
  files (fs (snd r)) output_path = files (fs m) output_path.
Proof.
  intros Ht Hin Hlock Hnew r. unfold r.
  rewrite (@process_file_run input_path output_path engine m t text Ht Hin), Hnew.
  assert (Hl : locked (after_backup m input_path text) output_path = true)
    by (rewrite after_backup_locked; exact Hlock).
  rewrite (@write_file_refused _ _ new Hl). cbn [fst snd fs world stdout].
  repeat split.
  destruct (Py.str_eqb output_path (input_path ++ lit ".bak")) eqn:E.
  - apply str_eqb_eq in E. unfold after_backup. rewrite <- E.
    destruct (negb _); [|reflexivity].
    rewrite (@write_file_refused _ _ text Hlock). reflexivity.
  - apply after_backup_other. intros E'. rewrite E', str_eqb_refl in E. discriminate.
Qed.


(** X20: when the text [new_text] returns cannot be encoded (the library
    returned a lone surrogate) and the output path can be written, the
    write fails after the file was opened: [process_file] fails, the file
    at the output path is left empty, and nothing is printed. *)
Theorem process_file_unencodable
        (input_path output_path engine : str) (m : Machine World)
        (t : translator) (text new : str) (w' : World) :
  get_translator lower engine = Done t ->
  read_file (fs m) input_path = Done text ->
  locked (fs m) output_path = false ->
  new_text (translate_of google argos sleep t) text (world m) = (Ok new, w') ->
  unencodable new = true ->
  let r := process_file google argos sleep lower input_path output_path engine m in
  fst r = Failed UnicodeEncodeError /\
  files (fs (snd r)) output_path = Some [] /\
  stdout (snd r) = stdout m.
Proof.
  intros Ht Hin Hlock Hnew Henc r. unfold r.
  rewrite (@process_file_run input_path output_path engine m t text Ht Hin), Hnew.
  unfold write_file. rewrite after_backup_locked, Hlock, Henc.
  cbn [fst snd fs stdout files with_file]. rewrite str_eqb_refl. repeat split.
Qed.

End Runs.

Lemma process_file_early_failure_witness :
  files (fs sample_machine) (lit "no.js") = None /\
  exists e, process_file echo echo no_sleep as_is (lit "no.js") (lit "ua.js") (lit "google")
                         sample_machine = (Failed e, sample_machine).
Proof.
  split; [reflexivity|].
  apply (@process_file_early_failure unit echo echo no_sleep as_is
                                     (lit "no.js") (lit "ua.js") (lit "google") sample_machine).
  right. reflexivity.
Defined.

Lemma backup_kept_witness :
  files (fs sample_machine_with_backup) (lit "ru.js" ++ lit ".bak") = Some (lit "old") /\
  lit "ua.js" <> lit "ru.js" ++ lit ".bak" /\
  files (fs (snd (process_file echo echo no_sleep as_is (lit "ru.js") (lit "ua.js")
                               (lit "google") sample_machine_with_backup)))
        (lit "ru.js" ++ lit ".bak") = Some (lit "old").
Proof.
  split; [reflexivity|]. split; [discriminate|].
  apply (@backup_kept unit echo echo no_sleep as_is (lit "ru.js") (lit "ua.js") (lit "google")
                      sample_machine_with_backup (lit "old")).
  - reflexivity.
  - discriminate.
Defined.


Lemma process_file_frame_witness :
  lit "ru.js" <> lit "ua.js" /\ lit "ru.js" <> lit "ru.js" ++ lit ".bak" /\
  files (fs (snd (process_file echo echo no_sleep as_is (lit "ru.js") (lit "ua.js")
                               (lit "google") sample_machine))) (lit "ru.js")
  = Some sample_text.
Proof.
  split; [discriminate|]. split; [discriminate|].
  apply (@process_file_frame unit echo echo no_sleep as_is (lit "ru.js") (lit "ua.js")
                             (lit "google") sample_machine (lit "ru.js")); discriminate.
Defined.

Lemma backup_made_witness :
  get_translator as_is (lit "google") = Done Google /\
  read_file (fs sample_machine) (lit "ru.js") = Done sample_text /\
  files (fs sample_machine) (lit "ru.js" ++ lit ".bak") = None /\
  locked (fs sample_machine) (lit "ru.js" ++ lit ".bak") = false /\
  lit "ua.js" <> lit "ru.js" ++ lit ".bak" /\
  files (fs (snd (process_file echo echo no_sleep as_is (lit "ru.js") (lit "ua.js")
                               (lit "google") sample_machine)))
        (lit "ru.js" ++ lit ".bak") = Some sample_text.
Proof.
  do 4 (split; [reflexivity|]). split; [discriminate|].
  apply (@backup_made unit echo echo no_sleep as_is (lit "ru.js") (lit "ua.js") (lit "google")
                      sample_machine Google sample_text);
    try reflexivity; discriminate.
Defined.

Lemma process_file_output_locked_witness :
  get_translator as_is (lit "google") = Done Google /\
  read_file (fs sample_machine_with_backup) (lit "ru.js") = Done sample_text /\
  locked (fs sample_machine_with_backup) (lit "ru.js.bak") = true /\
  new_text (translate_of echo echo no_sleep Google) sample_text tt = (Ok sample_text, tt) /\
  let r := process_file echo echo no_sleep as_is (lit "ru.js") (lit "ru.js.bak")
                        (lit "google") sample_machine_with_backup in
  fst r = Failed OSError /\
  world (snd r) = tt /\
  stdout (snd r) = [] /\
  files (fs (snd r)) (lit "ru.js.bak") = Some (lit "old").
Proof.
  do 4 (split; [reflexivity|]).
  apply (@process_file_output_locked unit echo echo no_sleep as_is (lit "ru.js")
                                     (lit "ru.js.bak") (lit "google")
                                     sample_machine_with_backup Google
                                     sample_text sample_text tt);
    reflexivity.
Defined.


Lemma process_file_unencodable_witness :
  let new := lit "x: " ++ [QUOTE; 55357%N; QUOTE] in
  get_translator as_is (lit "google") = Done Google /\
  read_file (fs sample_machine) (lit "ru.js") = Done sample_text /\
  locked (fs sample_machine) (lit "ua.js") = false /\
  new_text (translate_of garbling garbling no_sleep Google) sample_text tt = (Ok new, tt) /\
  unencodable new = true /\
  let r := process_file garbling garbling no_sleep as_is (lit "ru.js") (lit "ua.js")
                        (lit "google") sample_machine in
  fst r = Failed UnicodeEncodeError /\
  files (fs (snd r)) (lit "ua.js") = Some [] /\
  stdout (snd r) = [].
Proof.
  intros new. do 5 (split; [reflexivity|]).
  apply (@process_file_unencodable unit garbling garbling no_sleep as_is
                                   (lit "ru.js") (lit "ua.js") (lit "google")
                                   sample_machine Google sample_text new tt);
    reflexivity.
Defined.

(** ** [main] *)

Section MainRuns.

Variable World : Type.
Variable google argos : str -> World -> reply * World.
Variable sleep : nat -> World -> World.
Variable lower : str -> str.
Variable isword : char -> bool.

(** X16: when the input file is not there, [main] exits with status 1
    after one line on the standard error: no file is written, no backup is
    made, and the translation library is not called. *)
Theorem main_missing_input (args : Namespace) (m : Machine World) :
  files (fs m) (input args) = None ->
  let r := main google argos sleep lower isword args m in
  fst r = Failed (SystemExit 1) /\
  fs (snd r) = fs m /\ world (snd r) = world m /\ stdout (snd r) = stdout m /\
  stderr (snd r) = stderr m ++ [MSG_NOT_FOUND ++ input args].
Proof.
  intros H r. unfold r, main, exists_. rewrite H. cbn [negb fst snd fs world stdout stderr].
  repeat split.
Qed.



End MainRuns.

Lemma main_missing_input_witness :
  let args := {| input := lit "no.js"; output := None; engine := lit "google" |} in
  let r := main echo echo no_sleep as_is ascii_word args sample_machine in
  files (fs sample_machine) (input args) = None /\
  fst r = Failed (SystemExit 1) /\
  fs (snd r) = fs sample_machine /\ world (snd r) = tt /\ stdout (snd r) = [] /\
  stderr (snd r) = [MSG_NOT_FOUND ++ lit "no.js"].
Proof.
  intros args r. split; [reflexivity|].
  apply (@main_missing_input unit echo echo no_sleep as_is ascii_word args sample_machine).
  reflexivity.
Defined.

